(** * Peaks.js segment repository: [src/waveform-segments.js]

    A shallow embedding of the [WaveformSegments] class and the
    properties of its dual index (the ordered array [_segments] and the
    id-keyed object [_segmentsById]).

    Modelling choices, all local to this file:
    - a JavaScript number is a [JsNumber.t]: NaN, the two infinities, or a
      finite value carried as a rational (every finite double is one);
      comparisons follow the language ([NaN] compares false with everything);
    - the id counter is an integer of type [N] that stops at 2^53, where a
      JavaScript number stops counting by one;
    - a [Segment] object carries its object identity ([Segment.ref]), so that
      [===] on segments is comparison of identities;
    - the array held in [this._segments] lives in a store of arrays and the
      repository holds a reference to it, because [getSegments] hands that
      reference out;
    - the object in [this._segmentsById] is held as its keys and its
      prototype, because an assignment to the name [__proto__] changes the
      prototype and a read finds the names that the prototype has;
    - a method is a function from the world to a new world and an outcome
      (a returned value or a thrown exception); state changes made before a
      [throw] persist, as they do in the source. *)

From Stdlib Require Import QArith ZArith List Lia.
From stdpp Require Import base option list strings gmap pretty.

Local Open Scope Z_scope.
Local Open Scope nat_scope.

(** ** JavaScript numbers *)

Module JsNumber.

Inductive t : Type :=
| NaN
| NegInfinity
| Finite (q : Q)
| PosInfinity.

(** [a < b] *)
Definition lt (a b : t) : bool :=
  match a, b with
  | NaN, _ | _, NaN => false
  | NegInfinity, NegInfinity => false
  | NegInfinity, _ => true
  | Finite _, NegInfinity => false
  | Finite x, Finite y => negb (Qle_bool y x)
  | Finite _, PosInfinity => true
  | PosInfinity, _ => false
  end.

(** [a === b] on numbers *)
Definition strict_eq (a b : t) : bool :=
  match a, b with
  | NegInfinity, NegInfinity => true
  | Finite x, Finite y => Qeq_bool x y
  | PosInfinity, PosInfinity => true
  | _, _ => false
  end.

(** [a <= b] *)
Definition le (a b : t) : bool := lt a b || strict_eq a b.
(** [a > b] *)
Definition gt (a b : t) : bool := lt b a.
(** [a >= b] *)
Definition ge (a b : t) : bool := lt b a || strict_eq a b.

Definition zero : t := Finite 0.
Definition of_Z (z : Z) : t := Finite (inject_Z z).

End JsNumber.

(** ** Segments and segment descriptors *)

(** The caller-supplied [SegmentOptions] object.  A field that is absent,
    [undefined] or [null] is [None] ([isNullOrUndefined]). *)
Module Options.
Record t : Type := Build {
  id : option string;
  startTime : JsNumber.t;
  endTime : JsNumber.t;
  color : option string;
  labelText : option string;
  editable : option bool
}.
End Options.

(** Modelled from the spec: the [Segment] class of [segment.js], which is not
    part of the sources at hand.  A segment exposes the fields of section 3 of
    the specification; [ref] is the identity of the JavaScript object, which
    is what [===] compares. *)
Module Segment.
Record t : Type := Build {
  ref : nat;
  id : string;
  startTime : JsNumber.t;
  endTime : JsNumber.t;
  color : option string;
  labelText : string;
  editable : bool
}.

(** [a === b] on two segment objects *)
Definition same (a b : t) : bool := Nat.eqb (ref a) (ref b).
End Segment.

(** A JavaScript value as [add] and [removeByTime] can receive it. *)
#[warnings="-register-all"]
Inductive value : Type :=
| VUndefined
| VNull
| VBoolean (b : bool)
| VNumber (n : JsNumber.t)
| VString (s : string)
| VArray (elements : list value)
| VObject (o : Options.t).

(** [Array.isArray(v)] *)
Definition isArray (v : value) : bool :=
  match v with VArray _ => true | _ => false end.

(** Modelled from the spec: [isObject] of [utils.js], which is not part of the
    sources at hand; section 4.2 asks for "a structured key-value object". *)
Definition isObject (v : value) : option Options.t :=
  match v with VObject o => Some o | _ => None end.

(** ** The world: host context, array store and repository instance *)

Record PeaksOptions : Type := {
  randomizeSegmentColor : bool;
  segmentColor : option string
}.

(** What [this._peaks.emit] was called with. *)
Inductive Event : Type :=
| SegmentsAdd (segments : list Segment.t)
| SegmentsRemove (removed : list Segment.t)
| SegmentsRemoveAll.

Definition aref := nat.

(** The instance. The plain object in [this._segmentsById] is held as its
    own properties, [_segmentsById], and its prototype,
    [_segmentsById_prototype]: [None] is [Object.prototype], the prototype of
    a new [{}]; [Some s] is the segment [s], once an assignment to the name
    [__proto__] has made it the prototype. *)
Record WaveformSegments : Type := {
  _segments : aref;
  _segmentsById : gmap string Segment.t;
  _segmentsById_prototype : option Segment.t;
  _segmentIdCounter : N;
  _colorIndex : nat
}.

Record World : Type := {
  arrays : gmap aref (list Segment.t);
  next_array : aref;
  next_object : nat;
  options : PeaksOptions;
  emitted : list Event;
  this : WaveformSegments
}.

Definition with_arrays (f : gmap aref (list Segment.t) → gmap aref (list Segment.t))
    (w : World) : World :=
  {| arrays := f (arrays w); next_array := next_array w;
     next_object := next_object w; options := options w;
     emitted := emitted w; this := this w |}.

Definition with_this (f : WaveformSegments → WaveformSegments) (w : World) : World :=
  {| arrays := arrays w; next_array := next_array w;
     next_object := next_object w; options := options w;
     emitted := emitted w; this := f (this w) |}.

Definition set_segments (a : aref) (r : WaveformSegments) : WaveformSegments :=
  {| _segments := a; _segmentsById := _segmentsById r;
     _segmentsById_prototype := _segmentsById_prototype r;
     _segmentIdCounter := _segmentIdCounter r; _colorIndex := _colorIndex r |}.

Definition set_segmentsById (m : gmap string Segment.t) (r : WaveformSegments)
    : WaveformSegments :=
  {| _segments := _segments r; _segmentsById := m;
     _segmentsById_prototype := _segmentsById_prototype r;
     _segmentIdCounter := _segmentIdCounter r; _colorIndex := _colorIndex r |}.

Definition set_segmentsById_prototype (p : option Segment.t) (r : WaveformSegments)
    : WaveformSegments :=
  {| _segments := _segments r; _segmentsById := _segmentsById r;
     _segmentsById_prototype := p;
     _segmentIdCounter := _segmentIdCounter r; _colorIndex := _colorIndex r |}.

Definition set_segmentIdCounter (c : N) (r : WaveformSegments) : WaveformSegments :=
  {| _segments := _segments r; _segmentsById := _segmentsById r;
     _segmentsById_prototype := _segmentsById_prototype r;
     _segmentIdCounter := c; _colorIndex := _colorIndex r |}.

Definition set_colorIndex (i : nat) (r : WaveformSegments) : WaveformSegments :=
  {| _segments := _segments r; _segmentsById := _segmentsById r;
     _segmentsById_prototype := _segmentsById_prototype r;
     _segmentIdCounter := _segmentIdCounter r; _colorIndex := i |}.

(** The contents of the array behind a reference. *)
Definition array_get (w : World) (a : aref) : list Segment.t :=
  default [] (arrays w !! a).

(** The repository's two indexes, as the specification names them; [byId]
    is the mapping from the keys of the index object to their segments. *)
Definition ordered (w : World) : list Segment.t := array_get w (_segments (this w)).
Definition byId (w : World) : gmap string Segment.t := _segmentsById (this w).

(** ** Methods as state transformers with exceptions *)

Inductive exn : Type :=
| TypeError (message : string)
| Error (message : string).

Inductive outcome (A : Type) : Type :=
| Return (a : A)
| Throw (e : exn).
Arguments Return {A} a.
Arguments Throw {A} e.

Definition M (A : Type) : Type := World → World * outcome A.

Definition ret {A} (a : A) : M A := λ w, (w, Return a).
Definition throw {A} (e : exn) : M A := λ w, (w, Throw e).
Definition bind {A B} (m : M A) (k : A → M B) : M B :=
  λ w, match m w with
       | (w', Return a) => k a w'
       | (w', Throw e) => (w', Throw e)
       end.

Notation "'do' x <- m ; k" := (bind m (λ x, k))
  (at level 10, x name, m at level 100, k at level 200).
Notation "m ;; k" := (bind m (λ _, k))
  (at level 100, k at level 200, right associativity).

(** Reading a field, and an assignment to fields. *)
Definition read {A} (f : World → A) : M A := λ w, (w, Return (f w)).
Definition update (f : World → World) : M unit := λ w, (f w, Return tt).

(** [array.map(f)], with [f] run for its effects in index order. *)
Fixpoint array_map {A B} (f : A → M B) (l : list A) : M (list B) :=
  match l with
  | [] => ret []
  | x :: l' => do y <- f x; do ys <- array_map f l'; ret (y :: ys)
  end.

(** [array.forEach(f)] *)
Fixpoint array_forEach {A} (f : A → M unit) (l : list A) : M unit :=
  match l with
  | [] => ret tt
  | x :: l' => f x ;; array_forEach f l'
  end.

(** [a = []]: a new, empty array object. *)
Definition array_new : M aref := λ w,
  let a := next_array w in
  ({| arrays := <[a := []]> (arrays w); next_array := S a;
      next_object := next_object w; options := options w;
      emitted := emitted w; this := this w |}, Return a).

(** [a.push(x)] *)
Definition array_push (a : aref) (x : Segment.t) : M unit := λ w,
  (with_arrays (insert a (array_get w a ++ [x])) w, Return tt).

(** [a.splice(index, 1)]: the start position is clamped as the language
    prescribes (a negative index counts from the end); the result is the
    array of removed elements, empty when the start is past the end. *)
Definition splice_start (len : nat) (index : Z) : nat :=
  if (index <? 0)%Z then Z.to_nat (Z.max (Z.of_nat len + index) 0)
  else Z.to_nat (Z.min index (Z.of_nat len)).

Definition array_splice1 (a : aref) (index : Z) : M (list Segment.t) := λ w,
  let l := array_get w a in
  let start := splice_start (length l) index in
  (with_arrays (insert a (take start l ++ drop (S start) l)) w,
   Return (take 1 (drop start l))).

(** [this._peaks.emit(...)] *)
Definition emit (e : Event) : M unit := λ w,
  ({| arrays := arrays w; next_array := next_array w;
      next_object := next_object w; options := options w;
      emitted := emitted w ++ [e]; this := this w |}, Return tt).

(** ** The class *)

Definition colors : list string :=
  [ "#001f3f"; "#0074d9"; "#7fdbff"; "#39cccc"; "#ffdc00";
    "#ff851b"; "#ff4136"; "#85144b"; "#f012be"; "#b10dc9" ]%string.

(** [new WaveformSegments(peaks)] in a world with nothing else in it. *)
Definition constructor (peaks : PeaksOptions) : World :=
  {| arrays := {[ 0 := [] ]}; next_array := 1; next_object := 0;
     options := peaks; emitted := [];
     this := {| _segments := 0; _segmentsById := ∅;
                _segmentsById_prototype := None;
                _segmentIdCounter := 0; _colorIndex := 0 |} |}.

(** Where a counter held in a JavaScript number stops: every integer up to
    2^53 is a double, and [2^53 + 1] rounds back to 2^53. *)
Definition counter_limit : N := 9007199254740992.

(** What [n++] leaves in [n], for a counter that started at 0. *)
Definition increment (n : N) : N :=
  if (n <? counter_limit)%N then (n + 1)%N else n.

Definition _getNextSegmentId : M string := λ w,
  let c := _segmentIdCounter (this w) in
  (with_this (set_segmentIdCounter (increment c)) w,
   Return ("peaks.segment." +:+ pretty c)).

Definition _getSegmentColor : M (option string) := λ w,
  if randomizeSegmentColor (options w) then
    let i := S (_colorIndex (this w)) in
    let i' := if Nat.eqb i (length colors) then 0 else i in
    (with_this (set_colorIndex i') w, Return (colors !! i'))
  else
    (w, Return (segmentColor (options w))).

(** [object[key] = value] on the object in [this._segmentsById].  A key of
    the object is overwritten.  A name that is not a key becomes one, except
    the name [__proto__]: that name is found on [Object.prototype] as an
    accessor, whose setter makes [value] the prototype of the object and adds
    no key.  (What a segment that has become the prototype adds to the names
    found on the way to [Object.prototype] is decided by segment.js; the
    model takes it to add no accessor and no read-only property.) *)
Definition index_assign (key : string) (value : Segment.t) (r : WaveformSegments)
    : WaveformSegments :=
  match _segmentsById r !! key with
  | Some _ => set_segmentsById (<[key := value]> (_segmentsById r)) r
  | None =>
      if bool_decide (key = "__proto__"%string)
      then set_segmentsById_prototype (Some value) r
      else set_segmentsById (<[key := value]> (_segmentsById r)) r
  end.

Definition _addSegment (segment : Segment.t) : M unit :=
  do a <- read (λ w, _segments (this w));
  array_push a segment ;;
  update (with_this (index_assign (Segment.id segment) segment)).

(** Modelled from the spec: [new Segment(segmentOptions)] of [segment.js]; the
    new object gets a fresh identity and the fields it was given. *)
Definition new_Segment (id : string) (startTime endTime : JsNumber.t)
    (color : option string) (labelText : string) (editable : bool) : M Segment.t :=
  λ w,
  ({| arrays := arrays w; next_array := next_array w;
      next_object := S (next_object w); options := options w;
      emitted := emitted w; this := this w |},
   Return (Segment.Build (next_object w) id startTime endTime
             color labelText editable)).

(** [segmentOptions] is the copy made by [Object.assign]; its [peaks] entry
    has no counterpart in the model of [Segment] and is left out. *)
Definition _createSegment (options : value) : M Segment.t :=
  match isObject options with
  | None =>
      throw (TypeError "peaks.segments.add(): expected a Segment object parameter")
  | Some segmentOptions =>
      do id <- match Options.id segmentOptions with
               | None => _getNextSegmentId
               | Some i => ret i
               end;
      do color <- match Options.color segmentOptions with
                  | None => _getSegmentColor
                  | Some c => ret (Some c)
                  end;
      let labelText := default ""%string (Options.labelText segmentOptions) in
      let editable := default false (Options.editable segmentOptions) in
      new_Segment id (Options.startTime segmentOptions)
        (Options.endTime segmentOptions) color labelText editable
  end.

Definition getSegments : M aref := λ w, (w, Return (_segments (this w))).

(** The names that every object inherits from [Object.prototype], beside
    the accessor [__proto__]; each of them is a function. *)
Definition Object_prototype_members : list string :=
  [ "constructor"; "__defineGetter__"; "__defineSetter__"; "hasOwnProperty";
    "__lookupGetter__"; "__lookupSetter__"; "isPrototypeOf";
    "propertyIsEnumerable"; "toString"; "valueOf"; "toLocaleString" ]%string.

(** What [getSegment] can return. *)
Inductive found : Type :=
| Found (segment : Segment.t)
    (** a segment object *)
| FoundObjectPrototype
    (** the object [Object.prototype] *)
| FoundObjectPrototypeMember (name : string)
    (** the function [Object.prototype[name]] *)
| FoundThroughSegment (prototype : Segment.t) (name : string)
    (** [prototype[name] || null], which segment.js decides *)
| Null.

(** [object[name]] for a name that is not a key of the object in
    [this._segmentsById], followed by [|| null]: the name is looked for along
    the prototype chain.  [__proto__] is the accessor that gives the
    prototype itself. *)
Definition inherited (prototype : option Segment.t) (name : string) : found :=
  if bool_decide (name = "__proto__"%string) then
    match prototype with
    | Some s => Found s
    | None => FoundObjectPrototype
    end
  else
    match prototype with
    | Some s => FoundThroughSegment s name
    | None =>
        if bool_decide (name ∈ Object_prototype_members)
        then FoundObjectPrototypeMember name
        else Null
    end.

(** [this._segmentsById[id] || null] *)
Definition getSegment (id : string) : M found := λ w,
  (w, Return match _segmentsById (this w) !! id with
             | Some s => Found s
             | None => inherited (_segmentsById_prototype (this w)) id
             end).

Definition getSegmentsAtTime (time : JsNumber.t) : M (list Segment.t) := λ w,
  (w, Return (List.filter
                (λ segment, JsNumber.ge time (Segment.startTime segment)
                            && JsNumber.lt time (Segment.endTime segment))
                (ordered w))).

(** Modelled from the spec: [objectHasProperty] of [utils.js], the test that
    an id "already exists in [byId]". *)
Definition objectHasProperty (m : gmap string Segment.t) (k : string) : bool :=
  bool_decide (is_Some (m !! k)).

(** The value of [segments] before the [map]: the first argument when it is
    an array, otherwise all the arguments. *)
Definition add_batch (arguments : list value) : list value :=
  match arguments with
  | VArray elements :: _ => elements
  | _ => arguments
  end.

(** The callback of [segments.map] in [add]. *)
Definition add_check (segmentOptions : value) : M Segment.t :=
  do segment <- _createSegment segmentOptions;
  do index <- read (λ w, _segmentsById (this w));
  if objectHasProperty index (Segment.id segment)
  then throw (Error "peaks.segments.add(): duplicate id")
  else ret segment.

Definition add (arguments : list value) : M unit :=
  do segments <- array_map add_check (add_batch arguments);
  array_forEach _addSegment segments ;;
  emit (SegmentsAdd segments).

(** The body of the loop of [_findSegment] at index [i]. *)
Definition _findSegment_body (predicate : Segment.t → bool)
    (segments : list Segment.t) (indexes : list Z) (i : nat) : list Z :=
  match segments !! i with
  | Some s => if predicate s then indexes ++ [Z.of_nat i] else indexes
  | None => indexes
  end.

Definition _findSegment (predicate : Segment.t → bool) : M (list Z) := λ w,
  let segments := ordered w in
  (w, Return (foldl (_findSegment_body predicate segments) []
                (seq 0 (length segments)))).

(** The loop of [_removeIndexes], from position [i] of [indexes] on. Reading
    [.id] of [undefined] (nothing was spliced out) is a [TypeError]. *)
Fixpoint _removeIndexes_loop (indexes : list Z) (removed : list Segment.t)
    : M (list Segment.t) :=
  match indexes with
  | [] => ret removed
  | ix :: rest =>
      let index := (ix - Z.of_nat (length removed))%Z in
      do a <- read (λ w, _segments (this w));
      do spliced <- array_splice1 a index;
      match spliced !! 0 with
      | None => throw (TypeError "Cannot read properties of undefined (reading 'id')")
      | Some itemRemoved =>
          update (with_this (λ r, set_segmentsById
                                    (delete (Segment.id itemRemoved) (_segmentsById r)) r)) ;;
          _removeIndexes_loop rest (removed ++ [itemRemoved])
      end
  end.

Definition _removeIndexes (indexes : list Z) : M (list Segment.t) :=
  _removeIndexes_loop indexes [].

Definition _removeSegments (predicate : Segment.t → bool) : M (list Segment.t) :=
  do indexes <- _findSegment predicate;
  do removed <- _removeIndexes indexes;
  emit (SegmentsRemove removed) ;;
  ret removed.

Definition remove (segment : Segment.t) : M (list Segment.t) :=
  _removeSegments (λ s, Segment.same s segment).

Definition removeById (segmentId : string) : M (list Segment.t) :=
  _removeSegments (λ segment, bool_decide (Segment.id segment = segmentId)).

Definition removeByTime (startTime : JsNumber.t) (endTime : value)
    : M (list Segment.t) :=
  let endTime := match endTime with VNumber n => n | _ => JsNumber.zero end in
  let fnFilter :=
    if JsNumber.gt endTime JsNumber.zero then
      λ segment, JsNumber.strict_eq (Segment.startTime segment) startTime
                 && JsNumber.strict_eq (Segment.endTime segment) endTime
    else
      λ segment, JsNumber.strict_eq (Segment.startTime segment) startTime in
  _removeSegments fnFilter.

Definition removeAll : M unit :=
  do a <- array_new;
  update (with_this (set_segments a)) ;;
  update (with_this (λ r, set_segmentsById_prototype None (set_segmentsById ∅ r))) ;;
  emit SegmentsRemoveAll.

(** * Definitions used by the statements *)

(** ** Removal *)

(** The positions, counted from [k], of the elements of [l] that satisfy
    [p]: what the scan of [_findSegment] collects. *)
Fixpoint positions (p : Segment.t → bool) (l : list Segment.t) (k : nat) : list nat :=
  match l with
  | [] => []
  | x :: l' => if p x then k :: positions p l' (S k) else positions p l' (S k)
  end.

(** What [_removeIndexes] does to [byId]: one [delete] per removed segment. *)
Definition delete_all (removed : list Segment.t) (m : gmap string Segment.t)
    : gmap string Segment.t :=
  foldl (λ m s, delete (Segment.id s) m) m removed.

(** The world after the removal loop: the array behind [_segments] holds
    [l'], and the entries of [removed] are gone from [_segmentsById]. *)
Definition after_removal (l' removed : list Segment.t) (w : World) : World :=
  with_this (λ r, set_segmentsById (delete_all removed (_segmentsById r)) r)
    (with_arrays (insert (_segments (this w)) l') w).

(** ** Relations between the world before and after *)

(** [m] keeps [R] when the world it leaves, whether it returns or throws, is
    related by [R] to the world it started in. *)
Definition keeps (R : relation World) {A} (m : M A) : Prop :=
  ∀ w, R w (fst (m w)).

(** The id counter never goes down. *)
Definition counter_le (w w' : World) : Prop :=
  (_segmentIdCounter (this w) ≤ _segmentIdCounter (this w'))%N.

(** The prototype of the index object is the same. *)
Definition prototype_kept (w w' : World) : Prop :=
  _segmentsById_prototype (this w') = _segmentsById_prototype (this w).

(** A counter within its limit stays within it. *)
Definition counter_bounded (w w' : World) : Prop :=
  (_segmentIdCounter (this w) ≤ counter_limit)%N →
  (_segmentIdCounter (this w') ≤ counter_limit)%N.

(** Neither index, nor what was emitted, has changed. *)
Definition indexes_untouched (w w' : World) : Prop :=
  arrays w' = arrays w
  ∧ _segments (this w') = _segments (this w)
  ∧ _segmentsById (this w') = _segmentsById (this w)
  ∧ emitted w' = emitted w
  ∧ options w' = options w.

(** ** Normalization and insertion of a batch *)

(** The next value of the color cursor. *)
Definition next_colorIndex (i : nat) : nat :=
  if Nat.eqb (S i) (length colors) then 0 else S i.

(** The id that [_createSegment] gives a descriptor when the counter is [c],
    and the counter afterwards. *)
Definition normalized_id (c : N) (o : Options.t) : string :=
  match Options.id o with
  | Some i => i
  | None => "peaks.segment." +:+ pretty c
  end.

Definition counter_after (c : N) (o : Options.t) : N :=
  match Options.id o with
  | Some _ => c
  | None => increment c
  end.

(** The ids of a whole batch normalized from counter [c] on. *)
Fixpoint normalized_ids (c : N) (batch : list Options.t) : list string :=
  match batch with
  | [] => []
  | o :: batch' => normalized_id c o :: normalized_ids (counter_after c o) batch'
  end.

Definition counter_after_batch (c : N) (batch : list Options.t) : N :=
  foldl counter_after c batch.

Definition colorIndex_after (peaks : PeaksOptions) (i : nat) (o : Options.t) : nat :=
  match Options.color o with
  | Some _ => i
  | None => if randomizeSegmentColor peaks then next_colorIndex i else i
  end.

(** Descriptors that leave the id, or the color, to the repository. *)
Definition omits_id (o : Options.t) : bool :=
  match Options.id o with None => true | Some _ => false end.

Definition omits_color (o : Options.t) : bool :=
  match Options.color o with None => true | Some _ => false end.

Definition duplicate_id : exn := Error "peaks.segments.add(): duplicate id".

(** What the [forEach] of [add] does to the instance: one assignment per
    segment, in batch order. *)
Definition assign_all (segments : list Segment.t) (r : WaveformSegments)
    : WaveformSegments :=
  foldl (λ r s, index_assign (Segment.id s) s r) r segments.

(** What it does to [byId] when none of the ids is [__proto__]: one key per
    segment, a later one overwriting an earlier one under the same id. *)
Definition insert_all (segments : list Segment.t) (m : gmap string Segment.t)
    : gmap string Segment.t :=
  foldl (λ m s, <[Segment.id s := s]> m) m segments.

(** ** Sequences of calls *)

(** A call of a public method by the host. *)
Inductive call : Type :=
| CallAdd (arguments : list value)
| CallRemove (segment : Segment.t)
| CallRemoveById (segmentId : string)
| CallRemoveByTime (startTime : JsNumber.t) (endTime : value)
| CallRemoveAll
| CallGetSegments
| CallGetSegment (id : string)
| CallGetSegmentsAtTime (time : JsNumber.t).

(** The world after a call, whether it returned or threw. *)
Definition run_call (c : call) (w : World) : World :=
  match c with
  | CallAdd arguments => fst (add arguments w)
  | CallRemove segment => fst (remove segment w)
  | CallRemoveById segmentId => fst (removeById segmentId w)
  | CallRemoveByTime startTime endTime => fst (removeByTime startTime endTime w)
  | CallRemoveAll => fst (removeAll w)
  | CallGetSegments => fst (getSegments w)
  | CallGetSegment id => fst (getSegment id w)
  | CallGetSegmentsAtTime time => fst (getSegmentsAtTime time w)
  end.

Definition run_calls (calls : list call) (w : World) : World :=
  foldl (λ w c, run_call c w) w calls.


(** ** The invariant, and four claims as the specification words them *)

(** I1 and I2 of the specification. *)
Definition consistent (w : World) : Prop :=
  (∀ s, s ∈ ordered w → byId w !! Segment.id s = Some s)
  ∧ length (ordered w) = size (byId w)
  ∧ NoDup (map Segment.id (ordered w)).

(** The claim: every sequence of public calls on a new repository ends in a
    consistent state. *)
Definition always_consistent : Prop :=
  ∀ (peaks : PeaksOptions) (calls : list call),
    consistent (run_calls calls (constructor peaks)).


(** The claim as the specification words it: whatever is done to the array
    that [getSegments] returned, here a [push], the repository's ordered
    sequence is what it was. *)
Definition getSegments_defensive_copy : Prop :=
  ∀ (w : World) (a : aref) (x : Segment.t),
    snd (getSegments w) = Return a →
    ordered (fst (array_push a x w)) = ordered w.

(** The claim as the specification words it: normalizing a batch leaves the
    repository instance, id counter and color cursor included, as it was. *)
Definition normalization_pure : Prop :=
  ∀ (batch : list value) (w : World),
    this (fst (array_map add_check batch w)) = this w.

(** ** The invariant in the form that the methods keep *)

(** The link between the two indexes in the form that each method keeps:
    the ids in [ordered] are pairwise different, and [byId] maps a key to a
    segment exactly when that segment is in [ordered] under that id. *)
Definition linked (w : World) : Prop :=
  NoDup (map Segment.id (ordered w))
  ∧ ∀ k v, byId w !! k = Some v ↔ v ∈ ordered w ∧ Segment.id v = k.

(** The index object is as [{}] made it: its prototype is
    [Object.prototype] and [__proto__] is not one of its keys. *)
Definition plain_index (w : World) : Prop :=
  _segmentsById_prototype (this w) = None
  ∧ byId w !! "__proto__"%string = None.

(** A call that runs into neither the gap of C4 nor the name [__proto__]:
    the ids that normalization gives to the descriptors of an [add] batch are
    pairwise different, and none of them is [__proto__], which an assignment
    cannot make a key of the index object. *)
Definition batch_ids_proper (w : World) (c : call) : Prop :=
  match c with
  | CallAdd arguments =>
      ∀ batch, add_batch arguments = map VObject batch →
               NoDup (normalized_ids (_segmentIdCounter (this w)) batch)
               ∧ "__proto__"%string ∉ normalized_ids (_segmentIdCounter (this w)) batch
  | _ => True
  end.

Fixpoint batches_ids_proper (calls : list call) (w : World) : Prop :=
  match calls with
  | [] => True
  | c :: calls' => batch_ids_proper w c ∧ batches_ids_proper calls' (run_call c w)
  end.

(** ** What the methods leave in place *)

(** What [add] and the predicate-driven removals never change or only grow:
    the array store allocates nothing, [this._segments] is the same
    reference, the host options are the same, object identities are only
    handed out, and a color cursor inside the palette stays inside. *)
Definition method_frame (w w' : World) : Prop :=
  next_array w' = next_array w
  ∧ _segments (this w') = _segments (this w)
  ∧ options w' = options w
  ∧ next_object w ≤ next_object w'
  ∧ (_colorIndex (this w) < length colors → _colorIndex (this w') < length colors).

(** The reference in [this._segments] is an allocated array. *)
Definition store_ok (w : World) : Prop :=
  _segments (this w) < next_array w.

(** The color cursor is an index into the palette. *)
Definition cursor_in_range (w : World) : Prop :=
  _colorIndex (this w) < length colors.

(** The segments in [ordered] are pairwise different objects, all of them
    made before now. *)
Definition identities_fresh (w : World) : Prop :=
  NoDup (map Segment.ref (ordered w))
  ∧ ∀ s, s ∈ ordered w → Segment.ref s < next_object w.

Definition well_formed (w : World) : Prop :=
  store_ok w ∧ cursor_in_range w ∧ identities_fresh w.

(** ** The messages of the two exceptions of [add] *)

Definition not_an_object : exn :=
  TypeError "peaks.segments.add(): expected a Segment object parameter".

(** ** Descriptor and segment *)

(** What [_createSegment] promises about the fields of the segment it makes
    for a descriptor: times pass through, a given id and a given color are
    kept, a missing label is the empty string, a missing [editable] is
    [false], and a missing color is the host's fixed color when the host does
    not ask for randomized colors. *)
Definition fills_in (peaks : PeaksOptions) (o : Options.t) (s : Segment.t) : Prop :=
  Segment.startTime s = Options.startTime o
  ∧ Segment.endTime s = Options.endTime o
  ∧ Segment.labelText s = default ""%string (Options.labelText o)
  ∧ Segment.editable s = default false (Options.editable o)
  ∧ (∀ i, Options.id o = Some i → Segment.id s = i)
  ∧ (∀ c, Options.color o = Some c → Segment.color s = Some c)
  ∧ (Options.color o = None → randomizeSegmentColor peaks = false →
     Segment.color s = segmentColor peaks).

(** ** Sample inputs *)

(** A host with one fixed segment color, and one that asks for colors from
    the palette. *)
Definition plain_peaks : PeaksOptions :=
  {| randomizeSegmentColor := false; segmentColor := Some "#ff0000"%string |}.

Definition random_peaks : PeaksOptions :=
  {| randomizeSegmentColor := true; segmentColor := None |}.

(** A descriptor with an id, or none, and integer times. *)
Definition descriptor (id : option string) (startTime endTime : Z) : Options.t :=
  Options.Build id (JsNumber.of_Z startTime) (JsNumber.of_Z endTime) None None None.

(** A segment object that no repository made. *)
Definition stray_segment : Segment.t :=
  Segment.Build 7 "stray" (JsNumber.of_Z 0) (JsNumber.of_Z 1) None "" false.

(** A repository that holds the segment [2, 5) under the id ["s"]. *)
Definition holds_2_5 : World :=
  run_calls [CallAdd [VObject (descriptor (Some "s"%string) 2 5)]]
    (constructor plain_peaks).

Definition segment_2_5 : Segment.t :=
  Segment.Build 0 "s" (JsNumber.of_Z 2) (JsNumber.of_Z 5)
    (Some "#ff0000"%string) "" false.

(** A repository that holds [0, 10) and [10, 20), added in one batch. *)
Definition holds_two : World :=
  run_calls [CallAdd [VArray [VObject (descriptor None 0 10);
                              VObject (descriptor None 10 20)]]]
    (constructor plain_peaks).

Definition segment_0_10 : Segment.t :=
  Segment.Build 0 "peaks.segment.0" (JsNumber.of_Z 0) (JsNumber.of_Z 10)
    (Some "#ff0000"%string) "" false.

Definition segment_10_20 : Segment.t :=
  Segment.Build 1 "peaks.segment.1" (JsNumber.of_Z 10) (JsNumber.of_Z 20)
    (Some "#ff0000"%string) "" false.

(** * Lemmas *)

(** ** Predicate-driven removal *)

Section Removal.
Variable p : Segment.t → bool.

Lemma scan_positions (pre l : list Segment.t) (acc : list Z) :
  foldl (_findSegment_body p (pre ++ l)) acc (seq (length pre) (length l))
  = acc ++ map Z.of_nat (positions p l (length pre)).
Proof.
  revert pre acc. induction l as [|x l IH]; intros pre acc; simpl.
  - by rewrite app_nil_r.
  - specialize (IH (pre ++ [x])).
    rewrite <- app_assoc, length_app, Nat.add_1_r in IH. simpl in IH.
    rewrite IH. unfold _findSegment_body.
    rewrite list_lookup_middle by done.
    destruct (p x); simpl; [by rewrite <- app_assoc | done].
Qed.

Lemma _findSegment_positions (w : World) :
  _findSegment p w = (w, Return (map Z.of_nat (positions p (ordered w) 0))).
Proof.
  unfold _findSegment. do 2 f_equal.
  apply (scan_positions [] (ordered w) []).
Qed.

End Removal.

Lemma splice_start_in_range (len i : nat) :
  i ≤ len → splice_start len (Z.of_nat i) = i.
Proof.
  intros Hi. unfold splice_start.
  destruct (Z.ltb_spec (Z.of_nat i) 0); lia.
Qed.

Lemma world_eta (w : World) :
  {| arrays := arrays w; next_array := next_array w;
     next_object := next_object w; options := options w;
     emitted := emitted w; this := this w |} = w.
Proof. by destruct w. Qed.

Lemma this_eta (r : WaveformSegments) :
  {| _segments := _segments r; _segmentsById := _segmentsById r;
     _segmentsById_prototype := _segmentsById_prototype r;
     _segmentIdCounter := _segmentIdCounter r; _colorIndex := _colorIndex r |} = r.
Proof. by destruct r. Qed.

Lemma _removeIndexes_loop_drift (p : Segment.t → bool) (l kept removed : list Segment.t)
    (w : World) :
  arrays w !! _segments (this w) = Some (kept ++ l) →
  _removeIndexes_loop
    (map Z.of_nat (positions p l (length kept + length removed))) removed w
  = (after_removal (kept ++ List.filter (λ s, negb (p s)) l) (List.filter p l) w,
     Return (removed ++ List.filter p l)).
Proof.
  revert kept removed w.
  induction l as [|x l IH]; intros kept removed w Harr; simpl.
  - rewrite !app_nil_r in *. unfold ret, after_removal, with_this, with_arrays.
    simpl. rewrite (insert_id _ _ _ Harr).
    unfold set_segmentsById, delete_all. simpl.
    by rewrite this_eta, world_eta.
  - destruct (p x) eqn:Hpx; simpl.
    + unfold bind at 1, read at 1. unfold bind at 1, array_splice1 at 1.
      unfold array_get. rewrite Harr. simpl.
      replace (Z.of_nat (length kept + length removed) - Z.of_nat (length removed))%Z
        with (Z.of_nat (length kept)) by lia.
      rewrite splice_start_in_range by (rewrite length_app; lia).
      rewrite drop_app_length.
      replace (S (length kept)) with (length (kept ++ [x]))
        by (rewrite length_app; simpl; lia).
      rewrite take_app_length.
      rewrite (cons_middle x kept l), app_assoc, drop_app_length. simpl.
      unfold bind at 1, update at 1.
      specialize (IH kept (removed ++ [x])).
      rewrite length_app in IH. simpl in IH.
      replace (S (length kept + length removed))
        with (length kept + (length removed + 1)) by lia.
      rewrite IH; [|simpl; by rewrite lookup_insert_eq].
      rewrite <- app_assoc. simpl. f_equal.
      unfold after_removal, with_this, with_arrays, set_segmentsById. simpl.
      by rewrite insert_insert_eq.
    + specialize (IH (kept ++ [x]) removed).
      rewrite length_app in IH. simpl in IH.
      replace (S (length kept + length removed))
        with (length kept + 1 + length removed) by lia.
      rewrite IH; [|by rewrite <- app_assoc].
      by rewrite <- app_assoc.
Qed.

(** A run of [_removeSegments], with what it leaves untouched. *)
Lemma _removeSegments_run (p : Segment.t → bool) (w : World) :
  ∃ w', _removeSegments p w = (w', Return (List.filter p (ordered w)))
        ∧ ordered w' = List.filter (λ s, negb (p s)) (ordered w)
        ∧ byId w' = delete_all (List.filter p (ordered w)) (byId w)
        ∧ emitted w' = emitted w ++ [SegmentsRemove (List.filter p (ordered w))]
        ∧ _segmentIdCounter (this w') = _segmentIdCounter (this w)
        ∧ _colorIndex (this w') = _colorIndex (this w)
        ∧ _segments (this w') = _segments (this w)
        ∧ options w' = options w
        ∧ next_object w' = next_object w.
Proof.
  unfold _removeSegments. unfold bind at 1.
  rewrite _findSegment_positions.
  unfold bind at 1, _removeIndexes.
  destruct (arrays w !! _segments (this w)) as [l|] eqn:Harr.
  - pose proof (_removeIndexes_loop_drift p l [] [] w Harr) as H.
    simpl in H. unfold ordered, array_get. rewrite Harr. simpl.
    rewrite H. eexists. split; [reflexivity|].
    unfold ordered, byId, array_get, after_removal. simpl.
    rewrite lookup_insert_eq. simpl. done.
  - unfold ordered, array_get. rewrite Harr. simpl.
    eexists. split; [reflexivity|].
    unfold ordered, byId, array_get. simpl. rewrite ?Harr. done.
Qed.

Lemma lookup_delete_all (removed : list Segment.t) (m : gmap string Segment.t)
    (k : string) :
  delete_all removed m !! k
  = if decide (k ∈ map Segment.id removed) then None else m !! k.
Proof.
  unfold delete_all. revert m.
  induction removed as [|s removed IH]; intros m; cbn [foldl map].
  - case_decide; [set_solver | done].
  - rewrite IH, lookup_delete.
    destruct (decide (k ∈ map Segment.id removed)) as [Hin|Hnin].
    + by rewrite decide_True by (by apply list_elem_of_further).
    + destruct (decide (Segment.id s = k)) as [Heq|Hne].
      * by rewrite decide_True by (rewrite Heq; apply list_elem_of_here).
      * rewrite decide_False; [done|].
        intros [?|?]%elem_of_cons; congruence.
Qed.

Lemma sublist_filter {A} (f : A → bool) (l : list A) : sublist (List.filter f l) l.
Proof.
  induction l as [|x l IH]; simpl; [constructor|].
  destruct (f x); by constructor.
Qed.

Lemma elem_of_filter_bool {A} (f : A → bool) (l : list A) (x : A) :
  x ∈ List.filter f l ↔ x ∈ l ∧ f x = true.
Proof. rewrite !list_elem_of_In. apply filter_In. Qed.

(** ** Facts about number comparison *)

Lemma Qeq_bool_comm (x y : Q) : Qeq_bool x y = Qeq_bool y x.
Proof.
  apply eq_true_iff_eq. rewrite !Qeq_bool_iff. split; intros H; by symmetry.
Qed.

Lemma strict_eq_comm (a b : JsNumber.t) :
  JsNumber.strict_eq a b = JsNumber.strict_eq b a.
Proof. destruct a, b; simpl; try done. apply Qeq_bool_comm. Qed.

Lemma ge_le (a b : JsNumber.t) : JsNumber.ge a b = JsNumber.le b a.
Proof. unfold JsNumber.ge, JsNumber.le. by rewrite strict_eq_comm. Qed.

Lemma strict_eq_not_lt (a b : JsNumber.t) :
  JsNumber.strict_eq a b = true → JsNumber.lt a b = false.
Proof.
  destruct a, b; simpl; try done.
  intros H%Qeq_bool_iff. apply negb_false_iff, Qle_bool_iff.
  rewrite H. apply Qle_refl.
Qed.

Lemma strict_eq_lt_trans (t a b : JsNumber.t) :
  JsNumber.strict_eq t a = true → JsNumber.lt a b = true → JsNumber.lt t b = true.
Proof.
  destruct t, a, b; simpl; try done.
  intros H%Qeq_bool_iff. rewrite !negb_true_iff.
  intros Hlt. apply not_true_is_false. intros Hle%Qle_bool_iff.
  apply not_true_iff_false in Hlt. apply Hlt, Qle_bool_iff. by rewrite <- H.
Qed.

(** ** The id counter *)

Lemma increment_ge (c : N) : (c ≤ increment c)%N.
Proof. unfold increment. destruct (N.ltb_spec c counter_limit); lia. Qed.

Lemma increment_below (c : N) : (c < counter_limit)%N → increment c = (c + 1)%N.
Proof. unfold increment. intros H. destruct (N.ltb_spec c counter_limit); lia. Qed.

Lemma increment_at_limit (c : N) : (counter_limit ≤ c)%N → increment c = c.
Proof. unfold increment. intros H. destruct (N.ltb_spec c counter_limit); lia. Qed.


Lemma counter_after_ge (c : N) (o : Options.t) : (c ≤ counter_after c o)%N.
Proof. unfold counter_after. destruct (Options.id o); [lia | apply increment_ge]. Qed.

(** ** Relations kept by a computation *)

Section Keeps.
Context (R : relation World) `{!PreOrder R}.

Lemma keeps_ret {A} (a : A) : keeps R (ret a).
Proof. intros w. reflexivity. Qed.

Lemma keeps_throw {A} (e : exn) : keeps R (@throw A e).
Proof. intros w. reflexivity. Qed.

Lemma keeps_read {A} (f : World → A) : keeps R (read f).
Proof. intros w. reflexivity. Qed.

Lemma keeps_bind {A B} (m : M A) (k : A → M B) :
  keeps R m → (∀ a, keeps R (k a)) → keeps R (bind m k).
Proof.
  intros Hm Hk w. unfold bind. specialize (Hm w).
  destruct (m w) as [w1 [a|e]]; simpl in *; [|done].
  transitivity w1; [done|]. apply Hk.
Qed.

Lemma keeps_array_map {A B} (f : A → M B) (l : list A) :
  (∀ x, keeps R (f x)) → keeps R (array_map f l).
Proof.
  intros Hf. induction l as [|x l IH]; simpl.
  - apply keeps_ret.
  - apply keeps_bind; [done|]. intros y.
    apply keeps_bind; [done|]. intros ys. apply keeps_ret.
Qed.

End Keeps.

(** Splits a goal [keeps R m] along the shape of [m]. *)
Ltac keeps_split :=
  repeat first
    [ apply keeps_ret; apply _
    | apply keeps_throw; apply _
    | apply keeps_read; apply _
    | apply keeps_bind; [apply _| |intros ?] ].

Global Instance counter_le_preorder : PreOrder counter_le.
Proof.
  split.
  - intros w. unfold counter_le. lia.
  - intros a b c. unfold counter_le. lia.
Qed.

Global Instance indexes_untouched_preorder : PreOrder indexes_untouched.
Proof.
  split.
  - by intros w.
  - intros a b c (?&?&?&?&?) (?&?&?&?&?). unfold indexes_untouched.
    repeat split; congruence.
Qed.

Lemma indexes_untouched_ordered (w w' : World) :
  indexes_untouched w w' → ordered w' = ordered w.
Proof. intros (Ha & Hs & _). unfold ordered, array_get. by rewrite Ha, Hs. Qed.

Lemma indexes_untouched_byId (w w' : World) :
  indexes_untouched w w' → byId w' = byId w.
Proof. by intros (_ & _ & Hm & _). Qed.

(** ** Normalization of a batch *)

Lemma _getNextSegmentId_keeps_indexes : keeps indexes_untouched _getNextSegmentId.
Proof. by intros w. Qed.

Lemma _getSegmentColor_keeps_indexes : keeps indexes_untouched _getSegmentColor.
Proof.
  intros w. unfold _getSegmentColor.
  by destruct (randomizeSegmentColor (options w)).
Qed.

Lemma new_Segment_keeps_indexes i st et c lt ed :
  keeps indexes_untouched (new_Segment i st et c lt ed).
Proof. by intros w. Qed.

Lemma _createSegment_keeps_indexes (v : value) :
  keeps indexes_untouched (_createSegment v).
Proof.
  unfold _createSegment. destruct (isObject v) as [o|].
  - apply keeps_bind; [apply _|..].
    + destruct (Options.id o);
        [apply keeps_ret, _ | apply _getNextSegmentId_keeps_indexes].
    + intros i. apply keeps_bind; [apply _|..].
      * destruct (Options.color o);
          [apply keeps_ret, _ | apply _getSegmentColor_keeps_indexes].
      * intros c. apply new_Segment_keeps_indexes.
  - apply keeps_throw, _.
Qed.

Lemma add_check_keeps_indexes (v : value) : keeps indexes_untouched (add_check v).
Proof.
  unfold add_check. apply keeps_bind; [apply _|..].
  - apply _createSegment_keeps_indexes.
  - intros s. apply keeps_bind; [apply _|..].
    + apply keeps_read, _.
    + intros m. destruct (objectHasProperty m (Segment.id s));
        [apply keeps_throw, _ | apply keeps_ret, _].
Qed.

Lemma normalization_keeps_indexes (batch : list value) :
  keeps indexes_untouched (array_map add_check batch).
Proof.
  apply keeps_array_map; [apply _|]. apply add_check_keeps_indexes.
Qed.

(** One descriptor through [_createSegment]. *)
Lemma _createSegment_object (o : Options.t) (w : World) :
  ∃ w1 s,
    _createSegment (VObject o) w = (w1, Return s)
    ∧ Segment.id s = normalized_id (_segmentIdCounter (this w)) o
    ∧ Segment.ref s = next_object w
    ∧ Segment.startTime s = Options.startTime o
    ∧ Segment.endTime s = Options.endTime o
    ∧ _segmentIdCounter (this w1) = counter_after (_segmentIdCounter (this w)) o
    ∧ _colorIndex (this w1) = colorIndex_after (options w) (_colorIndex (this w)) o
    ∧ next_object w1 = S (next_object w)
    ∧ indexes_untouched w w1.
Proof.
  pose proof (_createSegment_keeps_indexes (VObject o) w) as Hk.
  revert Hk. unfold _createSegment, normalized_id, counter_after, colorIndex_after.
  simpl. unfold bind, _getNextSegmentId, _getSegmentColor, ret, new_Segment.
  destruct (Options.id o), (Options.color o),
    (randomizeSegmentColor (options w)) eqn:Hr; simpl; rewrite ?Hr; simpl;
    intros Hk; eexists _, _; (split; [reflexivity|]); simpl; by rewrite ?Hr.
Qed.

Lemma add_check_object (o : Options.t) (w w1 : World) (s : Segment.t) :
  _createSegment (VObject o) w = (w1, Return s) →
  add_check (VObject o) w
  = (w1, if objectHasProperty (_segmentsById (this w1)) (Segment.id s)
         then Throw duplicate_id else Return s).
Proof.
  intros H. unfold add_check, bind. rewrite H. unfold read.
  by destruct (objectHasProperty _ _).
Qed.

Lemma objectHasProperty_false (m : gmap string Segment.t) (k : string) :
  m !! k = None → objectHasProperty m k = false.
Proof.
  intros H. unfold objectHasProperty. apply bool_decide_eq_false.
  rewrite H. by intros [? ?].
Qed.

Lemma objectHasProperty_true (m : gmap string Segment.t) (k : string) :
  is_Some (m !! k) → objectHasProperty m k = true.
Proof. intros H. by apply bool_decide_eq_true. Qed.

(** A batch of descriptors none of whose ids is in [byId] is normalized in
    full. *)
Lemma normalization_passes (batch : list Options.t) (w : World) :
  (∀ k, k ∈ normalized_ids (_segmentIdCounter (this w)) batch → byId w !! k = None) →
  ∃ w1 segments,
    array_map add_check (map VObject batch) w = (w1, Return segments)
    ∧ map Segment.id segments = normalized_ids (_segmentIdCounter (this w)) batch
    ∧ map Segment.ref segments = seq (next_object w) (length batch)
    ∧ map Segment.startTime segments = map Options.startTime batch
    ∧ map Segment.endTime segments = map Options.endTime batch
    ∧ _segmentIdCounter (this w1)
      = counter_after_batch (_segmentIdCounter (this w)) batch
    ∧ _colorIndex (this w1)
      = foldl (colorIndex_after (options w)) (_colorIndex (this w)) batch
    ∧ next_object w1 = next_object w + length batch.
Proof.
  revert w. induction batch as [|o batch IH]; intros w Hfree.
  - exists w, []. simpl. by rewrite Nat.add_0_r.
  - destruct (_createSegment_object o w)
      as (w1 & s & Hc & Hid & Href & Hst & Het & Hcnt & Hcol & Hobj & Hun).
    pose proof (indexes_untouched_byId _ _ Hun) as Hby. unfold byId in Hby.
    destruct (IH w1) as (w2 & segments & Hm & Hids & Hrefs & Hsts & Hets
                         & Hcnt2 & Hcol2 & Hobj2).
    { intros k Hk. unfold byId. rewrite Hby. apply Hfree. simpl.
      apply list_elem_of_further. by rewrite <- Hcnt. }
    exists w2, (s :: segments). simpl. unfold bind at 1.
    rewrite (add_check_object _ _ _ _ Hc), Hby.
    rewrite objectHasProperty_false
      by (apply Hfree; simpl; rewrite Hid; apply list_elem_of_here).
    unfold bind at 1. rewrite Hm. unfold ret.
    destruct Hun as (_ & _ & _ & _ & Hopt).
    rewrite Hids, Hrefs, Hsts, Hets, Hcnt2, Hcol2, Hobj2, Hid, Href, Hst, Het,
      Hcnt, Hcol, Hobj, Hopt.
    repeat split; try done. lia.
Qed.

(** A batch of descriptors one of whose ids is in [byId] is rejected. *)
Lemma normalization_rejects (batch : list Options.t) (w : World) :
  (∃ k, k ∈ normalized_ids (_segmentIdCounter (this w)) batch
        ∧ is_Some (byId w !! k)) →
  ∃ w1, array_map add_check (map VObject batch) w = (w1, Throw duplicate_id).
Proof.
  revert w. induction batch as [|o batch IH]; intros w (k & Hk & Hsome).
  - by apply elem_of_nil in Hk.
  - destruct (_createSegment_object o w)
      as (w1 & s & Hc & Hid & _ & _ & _ & Hcnt & _ & _ & Hun).
    pose proof (indexes_untouched_byId _ _ Hun) as Hby. unfold byId in Hby.
    simpl. unfold bind at 1. rewrite (add_check_object _ _ _ _ Hc), Hby.
    destruct (objectHasProperty (_segmentsById (this w)) (Segment.id s)) eqn:Hhas.
    + by exists w1.
    + simpl in Hk. apply elem_of_cons in Hk as [->|Hk].
      { rewrite <- Hid in Hsome. unfold byId in Hsome.
        by rewrite (objectHasProperty_true _ _ Hsome) in Hhas. }
      destruct (IH w1) as (w2 & Hm).
      { exists k. rewrite Hcnt. split; [done|]. unfold byId. by rewrite Hby. }
      exists w2. unfold bind at 1. by rewrite Hm.
Qed.

(** ** Insertion *)

Lemma index_assign_frame (key : string) (value : Segment.t) (r : WaveformSegments) :
  _segments (index_assign key value r) = _segments r
  ∧ _segmentIdCounter (index_assign key value r) = _segmentIdCounter r
  ∧ _colorIndex (index_assign key value r) = _colorIndex r.
Proof.
  unfold index_assign.
  destruct (_segmentsById r !! key); [done|]. by case_bool_decide.
Qed.

Lemma assign_all_frame (segments : list Segment.t) (r : WaveformSegments) :
  _segments (assign_all segments r) = _segments r
  ∧ _segmentIdCounter (assign_all segments r) = _segmentIdCounter r
  ∧ _colorIndex (assign_all segments r) = _colorIndex r.
Proof.
  unfold assign_all. revert r.
  induction segments as [|s segments IH]; intros r; simpl; [done|].
  destruct (IH (index_assign (Segment.id s) s r)) as (-> & -> & ->).
  apply index_assign_frame.
Qed.

(** A key other than [__proto__] becomes, or stays, a key of the object. *)
Lemma index_assign_plain (key : string) (value : Segment.t) (r : WaveformSegments) :
  key ≠ "__proto__"%string →
  index_assign key value r = set_segmentsById (<[key := value]> (_segmentsById r)) r.
Proof.
  intros Hkey. unfold index_assign.
  destruct (_segmentsById r !! key); [done|]. by rewrite bool_decide_eq_false_2.
Qed.

Lemma assign_all_plain (segments : list Segment.t) (r : WaveformSegments) :
  "__proto__"%string ∉ map Segment.id segments →
  _segmentsById (assign_all segments r) = insert_all segments (_segmentsById r)
  ∧ _segmentsById_prototype (assign_all segments r) = _segmentsById_prototype r.
Proof.
  unfold assign_all, insert_all. revert r.
  induction segments as [|s segments IH]; intros r; simpl; [done|].
  intros [Hs Hrest]%not_elem_of_cons.
  rewrite index_assign_plain by done.
  by destruct (IH (set_segmentsById (<[Segment.id s := s]> (_segmentsById r)) r) Hrest)
    as [-> ->].
Qed.

Lemma insertion_run (segments : list Segment.t) (w : World) :
  ∃ w', array_forEach _addSegment segments w = (w', Return tt)
        ∧ ordered w' = ordered w ++ segments
        ∧ this w' = assign_all segments (this w)
        ∧ emitted w' = emitted w
        ∧ options w' = options w
        ∧ next_object w' = next_object w.
Proof.
  revert w. induction segments as [|s segments IH]; intros w.
  - exists w. simpl. by rewrite app_nil_r.
  - simpl. unfold bind at 1. unfold _addSegment at 1.
    unfold bind, read, array_push, update. simpl.
    match goal with |- ∃ w', array_forEach _ _ ?w1 = _ ∧ _ =>
      destruct (IH w1) as (w' & Hrun & Hord & Hthis & Hem & Hopt & Hobj)
    end.
    exists w'. rewrite Hrun, Hord, Hthis, Hem, Hopt, Hobj.
    split; [done|]. split; [|done].
    assert (Hseg : _segments (index_assign (Segment.id s) s (this w)) = _segments (this w))
      by apply index_assign_frame.
    unfold ordered, array_get. simpl. rewrite Hseg, lookup_insert_eq. simpl.
    by rewrite <- app_assoc.
Qed.

(** [add] once the batch has been normalized, and [add] when normalization
    throws. *)
Lemma add_returns (arguments : list value) (w w1 : World) (segments : list Segment.t) :
  array_map add_check (add_batch arguments) w = (w1, Return segments) →
  ∃ w', add arguments w = (w', Return tt)
        ∧ ordered w' = ordered w ++ segments
        ∧ this w' = assign_all segments (this w1)
        ∧ emitted w' = emitted w ++ [SegmentsAdd segments]
        ∧ _segmentIdCounter (this w') = _segmentIdCounter (this w1)
        ∧ _colorIndex (this w') = _colorIndex (this w1)
        ∧ _segments (this w') = _segments (this w)
        ∧ options w' = options w
        ∧ next_object w' = next_object w1.
Proof.
  intros Hm. pose proof (normalization_keeps_indexes (add_batch arguments) w) as Hun.
  rewrite Hm in Hun. simpl in Hun.
  pose proof (indexes_untouched_ordered _ _ Hun) as Hord1.
  destruct Hun as (_ & Hseg & _ & Hem1 & Hopt1).
  destruct (insertion_run segments w1)
    as (w2 & Hrun & Hord & Hthis & Hem & Hopt & Hobj).
  destruct (assign_all_frame segments (this w1)) as (Hs & Hc & Hi).
  unfold add, bind. rewrite Hm, Hrun. unfold emit. eexists. split; [reflexivity|].
  split. { transitivity (ordered w2); [reflexivity|]. by rewrite Hord, Hord1. }
  split; [done|].
  split. { simpl. by rewrite Hem, Hem1. }
  simpl. rewrite Hthis, Hopt, Hopt1, Hobj, Hs, Hc, Hi. by rewrite Hseg.
Qed.

Lemma add_throws (arguments : list value) (w w1 : World) (e : exn) :
  array_map add_check (add_batch arguments) w = (w1, Throw e) →
  add arguments w = (w1, Throw e)
  ∧ ordered w1 = ordered w ∧ byId w1 = byId w ∧ emitted w1 = emitted w.
Proof.
  intros Hm. pose proof (normalization_keeps_indexes (add_batch arguments) w) as Hun.
  rewrite Hm in Hun. simpl in Hun.
  split; [unfold add, bind; by rewrite Hm|].
  split; [by apply indexes_untouched_ordered|].
  split; [by apply indexes_untouched_byId|]. by destruct Hun as (_&_&_&?&_).
Qed.

Global Instance prototype_kept_preorder : PreOrder prototype_kept.
Proof.
  split.
  - by intros w.
  - intros a b c Hab Hbc. unfold prototype_kept in *. congruence.
Qed.

Lemma normalization_keeps_prototype (batch : list value) :
  keeps prototype_kept (array_map add_check batch).
Proof.
  apply keeps_array_map; [apply _|]. intros v. unfold add_check. keeps_split.
  - unfold _createSegment. destruct (isObject v) as [o|]; keeps_split.
    + destruct (Options.id o); [keeps_split | by intros w].
    + destruct (Options.color o); [keeps_split|].
      intros w. unfold _getSegmentColor.
      by destruct (randomizeSegmentColor (options w)).
    + by intros w.
  - destruct (objectHasProperty _ _); keeps_split.
Qed.

Lemma _removeSegments_keeps_prototype (predicate : Segment.t → bool) :
  keeps prototype_kept (_removeSegments predicate).
Proof.
  assert (Hloop : ∀ indexes removed,
             keeps prototype_kept (_removeIndexes_loop indexes removed)).
  { induction indexes as [|ix indexes IH]; intros removed; simpl; keeps_split.
    - by intros w.
    - match goal with |- keeps _ (match ?o with _ => _ end) => destruct o end;
        keeps_split; [by intros w | apply IH]. }
  unfold _removeSegments. keeps_split; [apply Hloop | by intros w].
Qed.

(** [add] that returns, for a batch none of whose ids is [__proto__]: every
    id is a key afterwards and the prototype is as it was. *)
Lemma add_returns_plain (arguments : list value) (w w1 : World)
    (segments : list Segment.t) :
  array_map add_check (add_batch arguments) w = (w1, Return segments) →
  "__proto__"%string ∉ map Segment.id segments →
  byId (fst (add arguments w)) = insert_all segments (byId w)
  ∧ _segmentsById_prototype (this (fst (add arguments w)))
    = _segmentsById_prototype (this w).
Proof.
  intros Hm Hplain.
  pose proof (normalization_keeps_indexes (add_batch arguments) w) as Hun.
  pose proof (normalization_keeps_prototype (add_batch arguments) w) as Hproto.
  rewrite Hm in Hun, Hproto. simpl in Hun, Hproto. unfold prototype_kept in Hproto.
  apply indexes_untouched_byId in Hun. unfold byId in *.
  destruct (add_returns _ _ _ _ Hm) as (w' & Hadd & _ & Hthis & _).
  rewrite Hadd. simpl. rewrite Hthis.
  destruct (assign_all_plain segments (this w1) Hplain) as [-> ->].
  by rewrite Hun, Hproto.
Qed.

(** X2. Whatever [add] throws, it has not touched [ordered] or [byId] and
    has emitted nothing. *)
Lemma add_throw_atomic (arguments : list value) (w w' : World) (e : exn) :
  add arguments w = (w', Throw e) →
  ordered w' = ordered w ∧ byId w' = byId w ∧ emitted w' = emitted w.
Proof.
  intros Hadd.
  destruct (array_map add_check (add_batch arguments) w) as [w1 [segments|e1]] eqn:Hm.
  - destruct (add_returns _ _ _ _ Hm) as (w2 & Hret & _).
    rewrite Hret in Hadd. discriminate Hadd.
  - destruct (add_throws _ _ _ _ Hm) as (Hthrow & Hrest).
    rewrite Hthrow in Hadd. by injection Hadd as <- _.
Qed.

Lemma removal_by_predicate_frame (predicate : Segment.t → bool) (w : World) :
  ∃ w', _removeSegments predicate w = (w', Return (List.filter predicate (ordered w)))
        ∧ ordered w' = List.filter (λ s, negb (predicate s)) (ordered w)
        ∧ ∀ k, byId w' !! k
               = if decide (k ∈ map Segment.id (List.filter predicate (ordered w)))
                 then None else byId w !! k.
Proof.
  destruct (_removeSegments_run predicate w) as (w' & Hrun & Hord & Hby & _).
  exists w'. do 2 (split; [done|]). intros k. rewrite Hby. apply lookup_delete_all.
Qed.

(** ** What [add] returns and what it throws *)

Lemma normalization_returns_objects (batch : list value) (w w1 : World)
    (segments : list Segment.t) :
  array_map add_check batch w = (w1, Return segments) →
  ∃ descriptors, batch = map VObject descriptors.
Proof.
  revert w w1 segments. induction batch as [|v batch IH]; intros w w1 segments.
  - intros _. by exists [].
  - simpl. unfold bind at 1.
    destruct (add_check v w) as [w2 [s|e]] eqn:Hv; [|done].
    unfold bind at 1.
    destruct (array_map add_check batch w2) as [w3 [ss|e]] eqn:Hm; [|done].
    intros _. destruct (IH _ _ _ Hm) as (descriptors & ->).
    destruct v as [| | | | | |o]; try discriminate Hv.
    by exists (o :: descriptors).
Qed.

(** What a normalization that returned says about the batch. *)
Lemma add_return_inversion (arguments : list value) (w w1 : World)
    (segments : list Segment.t) :
  array_map add_check (add_batch arguments) w = (w1, Return segments) →
  ∃ batch,
    add_batch arguments = map VObject batch
    ∧ (∀ k, k ∈ normalized_ids (_segmentIdCounter (this w)) batch → byId w !! k = None)
    ∧ map Segment.id segments = normalized_ids (_segmentIdCounter (this w)) batch
    ∧ map Segment.ref segments = seq (next_object w) (length batch)
    ∧ next_object w1 = next_object w + length batch.
Proof.
  intros Hm.
  destruct (normalization_returns_objects _ _ _ _ Hm) as (batch & Hbatch).
  exists batch. split; [done|].
  assert (Hfree : ∀ k, k ∈ normalized_ids (_segmentIdCounter (this w)) batch →
                       byId w !! k = None).
  { intros k Hk. destruct (byId w !! k) as [v|] eqn:Hkv; [|done]. exfalso.
    destruct (normalization_rejects batch w) as (w2 & Hrej).
    { exists k. by rewrite Hkv. }
    rewrite <- Hbatch, Hm in Hrej. discriminate Hrej. }
  split; [done|].
  destruct (normalization_passes batch w Hfree)
    as (w2 & segments' & Hm' & Hids & Hrefs & _ & _ & _ & _ & Hobj).
  rewrite <- Hbatch, Hm in Hm'. injection Hm' as <- <-. done.
Qed.

Lemma isObject_Some (v : value) (o : Options.t) : isObject v = Some o → v = VObject o.
Proof. destruct v; simpl; congruence. Qed.

Lemma add_check_outcomes (v : value) (w w1 : World) (e : exn) :
  add_check v w = (w1, Throw e) → e = not_an_object ∨ e = duplicate_id.
Proof.
  destruct (isObject v) as [o|] eqn:Hv.
  - apply isObject_Some in Hv as ->.
    destruct (_createSegment_object o w) as (w2 & s & Hc & _).
    rewrite (add_check_object _ _ _ _ Hc).
    destruct (objectHasProperty _ _); intros [= _ <-]. by right.
  - unfold add_check, bind, _createSegment. rewrite Hv. intros [= _ <-]. by left.
Qed.

Lemma normalization_outcomes (batch : list value) (w w1 : World) (e : exn) :
  array_map add_check batch w = (w1, Throw e) → e = not_an_object ∨ e = duplicate_id.
Proof.
  revert w. induction batch as [|v batch IH]; intros w; simpl; [done|].
  unfold bind at 1. destruct (add_check v w) as [w2 [s|e2]] eqn:Hv.
  - unfold bind at 1.
    destruct (array_map add_check batch w2) as [w3 [ss|e3]] eqn:Hm; [done|].
    intros [= <- <-]. by eapply IH.
  - intros [= <- <-]. by eapply add_check_outcomes.
Qed.

Lemma _createSegment_fills_in (o : Options.t) (w : World) :
  ∃ w1 s, _createSegment (VObject o) w = (w1, Return s)
          ∧ fills_in (options w) o s.
Proof.
  unfold _createSegment, fills_in. simpl.
  unfold bind, _getNextSegmentId, _getSegmentColor, ret, new_Segment.
  destruct (Options.id o), (Options.color o),
    (randomizeSegmentColor (options w)) eqn:Hr; simpl; rewrite ?Hr; simpl;
    eexists _, _; (split; [reflexivity|]); simpl;
    repeat split; try done; congruence.
Qed.

Lemma normalization_fills_in (batch : list Options.t) (w w1 : World)
    (segments : list Segment.t) :
  array_map add_check (map VObject batch) w = (w1, Return segments) →
  Forall2 (fills_in (options w)) batch segments.
Proof.
  revert w segments. induction batch as [|o batch IH]; intros w segments; simpl.
  - intros [= _ <-]. constructor.
  - unfold bind at 1.
    destruct (_createSegment_fills_in o w) as (w2 & s & Hc & Hfill).
    rewrite (add_check_object _ _ _ _ Hc).
    destruct (objectHasProperty _ _); [done|].
    unfold bind at 1.
    destruct (array_map add_check (map VObject batch) w2) as [w3 [ss|e]] eqn:Hm; [|done].
    intros [= <- <-]. constructor; [done|].
    pose proof (_createSegment_keeps_indexes (VObject o) w) as Hun.
    rewrite Hc in Hun. destruct Hun as (_ & _ & _ & _ & Hopt). simpl in Hopt.
    rewrite <- Hopt. by eapply IH.
Qed.

(** * Properties *)

(** ** C2: predicate-driven removal *)

(** C2. For every predicate and every repository state the removal
    algorithm shared by [remove], [removeById] and [removeByTime] runs to
    completion (the drift-compensated positions never miss), returns exactly
    the elements of [ordered] that satisfy the predicate, leaves in [ordered]
    exactly the others in their former relative order, and deletes from
    [byId] the entry of every removed element and no other entry. *)
Theorem removal_by_predicate_correct (predicate : Segment.t → bool) (w : World) :
  ∃ w' removed,
    _removeSegments predicate w = (w', Return removed)
    ∧ removed = List.filter predicate (ordered w)
    ∧ ordered w' = List.filter (λ s, negb (predicate s)) (ordered w)
    ∧ (∀ s, s ∈ removed ↔ s ∈ ordered w ∧ predicate s = true)
    ∧ (∀ s, s ∈ ordered w' ↔ s ∈ ordered w ∧ predicate s = false)
    ∧ sublist (ordered w') (ordered w)
    ∧ length (ordered w') + length removed = length (ordered w)
    ∧ (∀ k, byId w' !! k
            = if decide (k ∈ map Segment.id removed) then None else byId w !! k).
Proof.
  destruct (_removeSegments_run predicate w)
    as (w' & Hrun & Hord & Hby & _).
  exists w', (List.filter predicate (ordered w)).
  rewrite Hord, Hby. do 3 (split; [done|]).
  split. { intros s. by rewrite elem_of_filter_bool. }
  split. { intros s. by rewrite elem_of_filter_bool, negb_true_iff. }
  split. { apply sublist_filter. }
  split. { rewrite <- (filter_length predicate (ordered w)). lia. }
  apply lookup_delete_all.
Qed.

(** Index drift on a run: of [0, 10) and [10, 20), both with a [startTime]
    below 15, the scan collects the positions 0 and 1; the second removal
    happens at position 1 - 1 = 0 of the shortened array, and nothing is left. *)
Example removal_drift :
  fst (_findSegment (λ s, JsNumber.lt (Segment.startTime s) (JsNumber.of_Z 15)) holds_two)
  = holds_two
  ∧ snd (_findSegment (λ s, JsNumber.lt (Segment.startTime s) (JsNumber.of_Z 15)) holds_two)
    = Return [0%Z; 1%Z]
  ∧ snd (_removeIndexes [0%Z; 1%Z] holds_two) = Return [segment_0_10; segment_10_20]
  ∧ ordered (fst (_removeIndexes [0%Z; 1%Z] holds_two)) = []
  ∧ byId (fst (_removeIndexes [0%Z; 1%Z] holds_two)) = ∅.
Proof. repeat split; reflexivity. Qed.

(** Positions that do not come from the scan can miss: the loop then reads
    [.id] of [undefined]. *)
Example removal_out_of_range :
  snd (_removeIndexes [5%Z] holds_two)
  = Throw (TypeError "Cannot read properties of undefined (reading 'id')").
Proof. reflexivity. Qed.

(** ** C5: segments at a point in time *)

(** C5. [getSegmentsAtTime(t)] changes nothing and returns exactly the
    segments of [ordered] with [startTime <= t < endTime], in the order of
    [ordered]; a non-empty segment is returned when [t] is its [startTime],
    and no segment is returned when [t] is its [endTime]. *)
Theorem getSegmentsAtTime_half_open (t : JsNumber.t) (w : World) :
  ∃ result,
    getSegmentsAtTime t w = (w, Return result)
    ∧ result = List.filter (λ s, JsNumber.le (Segment.startTime s) t
                                 && JsNumber.lt t (Segment.endTime s)) (ordered w)
    ∧ sublist result (ordered w)
    ∧ (∀ s, s ∈ ordered w →
            JsNumber.strict_eq t (Segment.startTime s) = true →
            JsNumber.lt (Segment.startTime s) (Segment.endTime s) = true →
            s ∈ result)
    ∧ (∀ s, JsNumber.strict_eq t (Segment.endTime s) = true → s ∉ result).
Proof.
  eexists. split; [reflexivity|].
  assert (Heq : List.filter (λ s, JsNumber.ge t (Segment.startTime s)
                                  && JsNumber.lt t (Segment.endTime s)) (ordered w)
                = List.filter (λ s, JsNumber.le (Segment.startTime s) t
                                    && JsNumber.lt t (Segment.endTime s)) (ordered w)).
  { apply filter_ext. intros s. by rewrite ge_le. }
  rewrite Heq. repeat split.
  - apply sublist_filter.
  - intros s Hin Hst Hne. apply elem_of_filter_bool. split; [done|].
    apply andb_true_iff. split.
    + unfold JsNumber.le. rewrite strict_eq_comm, Hst. apply orb_true_r.
    + by apply (strict_eq_lt_trans _ _ _ Hst).
  - intros s Hend [_ [_ Hlt]%andb_true_iff]%elem_of_filter_bool.
    apply strict_eq_not_lt in Hend. congruence.
Qed.

(** The scenario of the specification: the segment [2, 5) is returned at
    time 2 and is not returned at time 5. *)
Lemma getSegmentsAtTime_half_open_witness :
  (∃ result, getSegmentsAtTime (JsNumber.of_Z 2) holds_2_5 = (holds_2_5, Return result)
             ∧ segment_2_5 ∈ result)
  ∧ (∃ result, getSegmentsAtTime (JsNumber.of_Z 5) holds_2_5 = (holds_2_5, Return result)
               ∧ segment_2_5 ∉ result).
Proof.
  split.
  - destruct (getSegmentsAtTime_half_open (JsNumber.of_Z 2) holds_2_5)
      as (result & Hrun & _ & _ & Hstart & _).
    exists result. split; [exact Hrun|].
    apply Hstart; [|reflexivity|reflexivity].
    apply (list_elem_of_lookup_2 _ 0). reflexivity.
  - destruct (getSegmentsAtTime_half_open (JsNumber.of_Z 5) holds_2_5)
      as (result & Hrun & _ & _ & _ & Hend).
    exists result. split; [exact Hrun|].
    apply Hend. reflexivity.
Defined.

(** ** C8: removal by time *)

(** C8. When [endTime] is omitted or is a number that is not greater than
    zero, [removeByTime(startTime, endTime)] removes exactly the segments
    whose [startTime] is the given one; when [endTime] is a number greater
    than zero it removes exactly the segments whose [startTime] and [endTime]
    are both the given ones.  The others stay, in order. *)
Theorem removeByTime_dispatch (startTime : JsNumber.t) (endTime : value) (w : World) :
  let by_start := λ s, JsNumber.strict_eq (Segment.startTime s) startTime in
  let by_both := λ n s, JsNumber.strict_eq (Segment.startTime s) startTime
                        && JsNumber.strict_eq (Segment.endTime s) n in
  (endTime = VUndefined
   ∨ (∃ n, endTime = VNumber n ∧ JsNumber.gt n JsNumber.zero = false) →
   ∃ w', removeByTime startTime endTime w
         = (w', Return (List.filter by_start (ordered w)))
         ∧ ordered w' = List.filter (λ s, negb (by_start s)) (ordered w))
  ∧ (∀ n, endTime = VNumber n → JsNumber.gt n JsNumber.zero = true →
     ∃ w', removeByTime startTime endTime w
           = (w', Return (List.filter (by_both n) (ordered w)))
           ∧ ordered w' = List.filter (λ s, negb (by_both n s)) (ordered w)).
Proof.
  intros by_start by_both. split.
  - intros Hend.
    destruct (_removeSegments_run by_start w) as (w' & Hrun & Hord & _).
    exists w'. split; [|done]. rewrite <- Hrun. unfold removeByTime.
    destruct Hend as [->|(n & -> & Hn)]; [done|]. by rewrite Hn.
  - intros n -> Hn.
    destruct (_removeSegments_run (by_both n) w) as (w' & Hrun & Hord & _).
    exists w'. split; [|done]. rewrite <- Hrun. unfold removeByTime.
    by rewrite Hn.
Qed.

(** The scenario of the specification: of [0, 10) and [10, 20),
    [removeByTime(10)] removes the second only and [removeByTime(0, 10)] the
    first only. *)
Lemma removeByTime_dispatch_witness :
  (∃ w', removeByTime (JsNumber.of_Z 10) VUndefined holds_two
         = (w', Return [segment_10_20])
         ∧ ordered w' = [segment_0_10])
  ∧ (∃ w', removeByTime (JsNumber.of_Z 0) (VNumber (JsNumber.of_Z 10)) holds_two
           = (w', Return [segment_0_10])
           ∧ ordered w' = [segment_10_20]).
Proof.
  split.
  - destruct (removeByTime_dispatch (JsNumber.of_Z 10) VUndefined holds_two)
      as [Hstart _].
    destruct Hstart as (w' & Hrun & Hord); [left; reflexivity|].
    exists w'. split; [exact Hrun | exact Hord].
  - destruct (removeByTime_dispatch (JsNumber.of_Z 0) (VNumber (JsNumber.of_Z 10))
                holds_two) as [_ Hboth].
    destruct (Hboth (JsNumber.of_Z 10)) as (w' & Hrun & Hord);
      [reflexivity | reflexivity |].
    exists w'. split; [exact Hrun | exact Hord].
Defined.

(** ** C3: rejection of a duplicate id *)

(** C3. When the id of some normalized descriptor of the batch is already a
    key of [byId], [add] throws the duplicate-id error; [ordered] and [byId]
    are what they were (so the segment count is unchanged) and nothing is
    emitted. *)
Theorem add_duplicate_id_atomic (arguments : list value) (batch : list Options.t)
    (w : World) :
  add_batch arguments = map VObject batch →
  (∃ k, k ∈ normalized_ids (_segmentIdCounter (this w)) batch
        ∧ is_Some (byId w !! k)) →
  ∃ w', add arguments w = (w', Throw (Error "peaks.segments.add(): duplicate id"))
        ∧ ordered w' = ordered w
        ∧ byId w' = byId w
        ∧ length (ordered w') = length (ordered w)
        ∧ emitted w' = emitted w.
Proof.
  intros Hbatch Hdup.
  destruct (normalization_rejects batch w Hdup) as (w1 & Hm).
  rewrite <- Hbatch in Hm.
  destruct (add_throws _ _ _ _ Hm) as (Hadd & Hord & Hby & Hem).
  exists w1. by rewrite Hord.
Qed.

(** The scenario of the specification: the id ["s"] is taken, and a new
    descriptor with the id ["s"] is refused. *)
Lemma add_duplicate_id_atomic_witness :
  ∃ w', add [VObject (descriptor (Some "s"%string) 7 9)] holds_2_5
        = (w', Throw (Error "peaks.segments.add(): duplicate id"))
        ∧ ordered w' = ordered holds_2_5
        ∧ byId w' = byId holds_2_5
        ∧ length (ordered w') = length (ordered holds_2_5)
        ∧ emitted w' = emitted holds_2_5.
Proof.
  apply (add_duplicate_id_atomic _ [descriptor (Some "s"%string) 7 9]).
  - reflexivity.
  - exists "s"%string. split; [apply list_elem_of_here|].
    exists segment_2_5. reflexivity.
Defined.

(** ** C4: two descriptors of one batch with the same id *)

Lemma normalized_ids_explicit (batch : list Options.t) (c : N) (i : nat)
    (o : Options.t) (x : string) :
  batch !! i = Some o → Options.id o = Some x →
  normalized_ids c batch !! i = Some x.
Proof.
  revert c i. induction batch as [|o' batch IH]; intros c i Hi Hx; [done|].
  destruct i as [|i]; simpl in *.
  - injection Hi as ->. unfold normalized_id. by rewrite Hx.
  - by apply IH.
Qed.

Lemma lookup_map_Some {A B} (f : A → B) (l : list A) (i : nat) (y : B) :
  map f l !! i = Some y → ∃ x, l !! i = Some x ∧ f x = y.
Proof.
  revert i. induction l as [|a l IH]; intros i; [done|].
  destruct i as [|i]; simpl.
  - intros [= <-]. by exists a.
  - apply IH.
Qed.

Lemma lookup_map_of {A B} (f : A → B) (l : list A) (i : nat) (x : A) :
  l !! i = Some x → map f l !! i = Some (f x).
Proof.
  revert i. induction l as [|a l IH]; intros i; [done|].
  destruct i as [|i]; simpl.
  - by intros [= <-].
  - apply IH.
Qed.

(** C4. The duplicate-id check looks only at the index as it was before the
    call: a batch that passes it and holds, at two different positions, two
    descriptors with the same explicit id, is inserted whole.  [ordered] then
    holds two different segment objects with that id. *)
Theorem add_intra_batch_duplicate (arguments : list value) (batch : list Options.t)
    (w : World) (i j : nat) (oi oj : Options.t) (x : string) :
  add_batch arguments = map VObject batch →
  i ≠ j → batch !! i = Some oi → batch !! j = Some oj →
  Options.id oi = Some x → Options.id oj = Some x →
  (∀ k, k ∈ normalized_ids (_segmentIdCounter (this w)) batch → byId w !! k = None) →
  ∃ w' segments si sj,
    add arguments w = (w', Return tt)
    ∧ ordered w' = ordered w ++ segments
    ∧ emitted w' = emitted w ++ [SegmentsAdd segments]
    ∧ segments !! i = Some si ∧ segments !! j = Some sj
    ∧ si ∈ ordered w' ∧ sj ∈ ordered w'
    ∧ Segment.id si = x ∧ Segment.id sj = x
    ∧ Segment.same si sj = false
    ∧ ¬ NoDup (map Segment.id (ordered w')).
Proof.
  intros Hbatch Hij Hi Hj Hxi Hxj Hfree.
  destruct (normalization_passes batch w Hfree)
    as (w1 & segments & Hm & Hids & Hrefs & _).
  rewrite <- Hbatch in Hm.
  destruct (add_returns _ _ _ _ Hm) as (w' & Hadd & Hord & _ & Hem & _).
  pose proof (normalized_ids_explicit _ (_segmentIdCounter (this w)) _ _ _ Hi Hxi) as Hni.
  pose proof (normalized_ids_explicit _ (_segmentIdCounter (this w)) _ _ _ Hj Hxj) as Hnj.
  rewrite <- Hids in Hni, Hnj.
  destruct (lookup_map_Some _ _ _ _ Hni) as (si & Hsi & Hidi).
  destruct (lookup_map_Some _ _ _ _ Hnj) as (sj & Hsj & Hidj).
  exists w', segments, si, sj. rewrite Hord.
  do 5 (split; [done|]).
  split. { apply elem_of_app. right. by eapply list_elem_of_lookup_2. }
  split. { apply elem_of_app. right. by eapply list_elem_of_lookup_2. }
  do 2 (split; [done|]).
  split.
  - pose proof (lookup_map_of Segment.ref _ _ _ Hsi) as Hri.
    pose proof (lookup_map_of Segment.ref _ _ _ Hsj) as Hrj.
    rewrite Hrefs in Hri, Hrj.
    apply lookup_seq in Hri as [Hri _], Hrj as [Hrj _].
    unfold Segment.same. apply Nat.eqb_neq. lia.
  - rewrite map_app. intros (_ & _ & Hnd)%NoDup_app.
    apply Hij. apply (NoDup_lookup _ _ _ x Hnd).
    + rewrite <- Hidi. by apply lookup_map_of.
    + rewrite <- Hidj. by apply lookup_map_of.
Qed.

(** Two descriptors with the id ["a"] in one batch for a new repository. *)
Lemma add_intra_batch_duplicate_witness :
  ∃ w' segments si sj,
    add [VArray [VObject (descriptor (Some "a"%string) 0 10);
                 VObject (descriptor (Some "a"%string) 20 30)]]
      (constructor plain_peaks) = (w', Return tt)
    ∧ ordered w' = ordered (constructor plain_peaks) ++ segments
    ∧ emitted w' = emitted (constructor plain_peaks) ++ [SegmentsAdd segments]
    ∧ segments !! 0 = Some si ∧ segments !! 1 = Some sj
    ∧ si ∈ ordered w' ∧ sj ∈ ordered w'
    ∧ Segment.id si = "a"%string ∧ Segment.id sj = "a"%string
    ∧ Segment.same si sj = false
    ∧ ¬ NoDup (map Segment.id (ordered w')).
Proof.
  apply (add_intra_batch_duplicate _
           [descriptor (Some "a"%string) 0 10; descriptor (Some "a"%string) 20 30]
           _ 0 1 (descriptor (Some "a"%string) 0 10)
           (descriptor (Some "a"%string) 20 30)).
  - reflexivity.
  - lia.
  - reflexivity.
  - reflexivity.
  - reflexivity.
  - reflexivity.
  - intros k _. reflexivity.
Defined.

(** ** C10: positional arguments *)

(** C10. When the first of two arguments is not an array, [add(d1, d2)] and
    [add([d1, d2])] are the same computation on the same batch [d1, d2].
    That computation returns exactly when both values are descriptor objects
    whose normalized ids are free.  It has then appended the two segments
    made from them to [ordered], in the order of the arguments, has made
    them entries of [byId] under their ids, and has emitted one
    "segments.add" whose payload is the two segments.  Otherwise it throws
    the type error or the duplicate-id error, and [ordered], [byId] and the
    notifications are as before. *)
Theorem add_variadic (d1 d2 : value) (w : World) :
  isArray d1 = false →
  add_batch [d1; d2] = [d1; d2]
  ∧ add_batch [VArray [d1; d2]] = [d1; d2]
  ∧ add [d1; d2] w = add [VArray [d1; d2]] w
  ∧ ((∃ o1 o2, d1 = VObject o1 ∧ d2 = VObject o2
               ∧ ∀ k, k ∈ normalized_ids (_segmentIdCounter (this w)) [o1; o2] →
                      byId w !! k = None)
     ↔ ∃ w', add [d1; d2] w = (w', Return tt))
  ∧ (∀ w' r, add [d1; d2] w = (w', r) →
       match r with
       | Return _ =>
           ∃ o1 o2 s1 s2,
             d1 = VObject o1 ∧ d2 = VObject o2
             ∧ fills_in (options w) o1 s1 ∧ fills_in (options w) o2 s2
             ∧ [Segment.id s1; Segment.id s2]
               = normalized_ids (_segmentIdCounter (this w)) [o1; o2]
             ∧ ordered w' = ordered w ++ [s1; s2]
             ∧ (("__proto__"%string ∉ [Segment.id s1; Segment.id s2]) →
                byId w' = <[Segment.id s2 := s2]> (<[Segment.id s1 := s1]> (byId w)))
             ∧ emitted w' = emitted w ++ [SegmentsAdd [s1; s2]]
       | Throw e =>
           (e = TypeError "peaks.segments.add(): expected a Segment object parameter"
            ∨ e = Error "peaks.segments.add(): duplicate id")
           ∧ ordered w' = ordered w ∧ byId w' = byId w ∧ emitted w' = emitted w
       end).
Proof.
  intros Hd1.
  assert (Hbatch : add_batch [d1; d2] = [d1; d2]) by (by destruct d1).
  split; [done|]. split; [done|].
  split; [unfold add; by rewrite Hbatch|].
  split; [split|].
  - intros (o1 & o2 & -> & -> & Hfree).
    destruct (normalization_passes [o1; o2] w Hfree) as (w1 & segments & Hm & _).
    destruct (add_returns [VObject o1; VObject o2] _ _ _ Hm) as (w' & Hadd & _).
    by exists w'.
  - intros (w' & Hadd).
    destruct (array_map add_check (add_batch [d1; d2]) w) as [w1 [segments|e]] eqn:Hm.
    + destruct (add_return_inversion _ _ _ _ Hm) as (batch & Hb & Hfree & _).
      rewrite Hbatch in Hb.
      destruct batch as [|o1 [|o2 [|o3 batch]]]; try discriminate Hb.
      injection Hb as -> ->. by exists o1, o2.
    + destruct (add_throws _ _ _ _ Hm) as (Hthrow & _).
      rewrite Hthrow in Hadd. discriminate Hadd.
  - intros w' r Hadd.
    destruct (array_map add_check (add_batch [d1; d2]) w) as [w1 [segments|e]] eqn:Hm.
    + destruct (add_return_inversion _ _ _ _ Hm) as (batch & Hb & _ & Hids & _).
      rewrite Hbatch in Hb.
      destruct batch as [|o1 [|o2 [|o3 batch]]]; try discriminate Hb.
      injection Hb as -> ->.
      pose proof (normalization_fills_in [o1; o2] w w1 segments Hm) as Hfill.
      destruct (add_returns _ _ _ _ Hm) as (w2 & Hret & Hord & _ & Hem & _).
      rewrite Hret in Hadd. injection Hadd as <- <-.
      destruct segments as [|s1 [|s2 [|s3 segments]]]; try discriminate Hids.
      apply Forall2_cons in Hfill as [Hfill1 Hfill2].
      apply Forall2_cons in Hfill2 as [Hfill2 _].
      exists o1, o2, s1, s2. do 6 (split; [done|]). split; [|done].
      intros Hproto. destruct (add_returns_plain _ _ _ _ Hm Hproto) as [Hby _].
      by rewrite Hret in Hby.
    + destruct (add_throws _ _ _ _ Hm) as (Hthrow & Hrest).
      rewrite Hthrow in Hadd. injection Hadd as <- <-.
      split; [|done]. by apply (normalization_outcomes _ _ _ _ Hm).
Qed.

(** Two descriptors without ids for a new repository: the call returns. *)
Lemma add_variadic_witness :
  add_batch [VObject (descriptor None 0 10); VObject (descriptor None 10 20)]
  = [VObject (descriptor None 0 10); VObject (descriptor None 10 20)]
  ∧ add_batch [VArray [VObject (descriptor None 0 10); VObject (descriptor None 10 20)]]
    = [VObject (descriptor None 0 10); VObject (descriptor None 10 20)]
  ∧ add [VObject (descriptor None 0 10); VObject (descriptor None 10 20)]
      (constructor plain_peaks)
    = add [VArray [VObject (descriptor None 0 10); VObject (descriptor None 10 20)]]
        (constructor plain_peaks)
  ∧ ∃ w', add [VObject (descriptor None 0 10); VObject (descriptor None 10 20)]
            (constructor plain_peaks) = (w', Return tt).
Proof.
  destruct (add_variadic (VObject (descriptor None 0 10)) (VObject (descriptor None 10 20))
              (constructor plain_peaks)) as (Hfirst & Hsecond & Hsame & Hreturns & _);
    [reflexivity|].
  split; [exact Hfirst|]. split; [exact Hsecond|]. split; [exact Hsame|].
  apply Hreturns. exists (descriptor None 0 10), (descriptor None 10 20).
  split; [reflexivity|]. split; [reflexivity|]. intros k _. reflexivity.
Defined.

(** ** C6: what [getSegments] returns *)

(** C6, counterexample. In a new repository the caller pushes a segment onto
    the array obtained from [getSegments]; the repository's ordered sequence
    now holds it. *)
Lemma getSegments_defensive_copy_refuted : ¬ getSegments_defensive_copy.
Proof.
  intros H. specialize (H (constructor plain_peaks) 0 stray_segment eq_refl).
  vm_compute in H. discriminate H.
Qed.

(** C6, as the code has it. [getSegments] changes nothing and returns the
    reference held in [this._segments], not a copy: the array behind it is the
    ordered sequence itself, and a [push] on it by the caller lengthens the
    repository's ordered sequence while [byId] stays as it was. *)
Theorem getSegments_returns_internal_array (w : World) :
  getSegments w = (w, Return (_segments (this w)))
  ∧ array_get w (_segments (this w)) = ordered w
  ∧ ∀ x, ordered (fst (array_push (_segments (this w)) x w)) = ordered w ++ [x]
         ∧ byId (fst (array_push (_segments (this w)) x w)) = byId w.
Proof.
  split; [done|]. split; [done|]. intros x. split; [|done].
  unfold ordered, array_get, array_push. simpl. by rewrite lookup_insert_eq.
Qed.

(** ** C9: normalization and the repository state *)

(** C9, counterexample. Normalizing one descriptor without an id in a new
    repository moves the id counter from 0 to 1. *)
Lemma normalization_pure_refuted : ¬ normalization_pure.
Proof.
  intros H.
  specialize (H [VObject (descriptor None 0 10)] (constructor plain_peaks)).
  vm_compute in H. discriminate H.
Qed.

Lemma counter_after_batch_count (batch : list Options.t) (c : N) :
  counter_after_batch c batch
  = N.max c (N.min (c + N.of_nat (length (List.filter omits_id batch))) counter_limit).
Proof.
  unfold counter_after_batch. revert c.
  induction batch as [|o batch IH]; intros c; simpl; [lia|].
  rewrite IH. unfold counter_after, omits_id, increment.
  destruct (Options.id o); simpl; [lia|].
  destruct (N.ltb_spec c counter_limit); lia.
Qed.

Lemma colorIndex_after_batch_count (peaks : PeaksOptions) (batch : list Options.t)
    (i : nat) :
  foldl (colorIndex_after peaks) i batch
  = if randomizeSegmentColor peaks
    then Nat.iter (length (List.filter omits_color batch)) next_colorIndex i
    else i.
Proof.
  revert i. induction batch as [|o batch IH]; intros i; simpl.
  - by destruct (randomizeSegmentColor peaks).
  - rewrite IH. unfold colorIndex_after, omits_color.
    destruct (Options.color o), (randomizeSegmentColor peaks); try done.
    simpl length. by rewrite Nat.iter_succ_r.
Qed.

(** C9, as the code has it. Normalizing a batch, whatever it holds and
    whether or not it ends in an exception, leaves [ordered] and [byId] as
    they were and emits nothing, and the id counter does not go down.  It is
    not pure: for a batch of descriptors that passes, the id counter has
    advanced by one for each descriptor without an id, and the color cursor
    has moved once for each descriptor without a color when the host asks
    for randomized colors (and not at all otherwise). *)
Theorem normalization_effects (batch : list value) (w : World) :
  let w' := fst (array_map add_check batch w) in
  ordered w' = ordered w
  ∧ byId w' = byId w
  ∧ emitted w' = emitted w
  ∧ (_segmentIdCounter (this w) ≤ _segmentIdCounter (this w'))%N
  ∧ ∀ descriptors,
      batch = map VObject descriptors →
      (∀ k, k ∈ normalized_ids (_segmentIdCounter (this w)) descriptors →
            byId w !! k = None) →
      _segmentIdCounter (this w')
      = N.max (_segmentIdCounter (this w))
          (N.min (_segmentIdCounter (this w)
                  + N.of_nat (length (List.filter omits_id descriptors)))
             counter_limit)
      ∧ _colorIndex (this w')
        = if randomizeSegmentColor (options w)
          then Nat.iter (length (List.filter omits_color descriptors))
                 next_colorIndex (_colorIndex (this w))
          else _colorIndex (this w).
Proof.
  intros w'. pose proof (normalization_keeps_indexes batch w) as Hun.
  split; [by apply indexes_untouched_ordered|].
  split; [by apply indexes_untouched_byId|].
  split; [by destruct Hun as (_&_&_&?&_)|].
  assert (Hdesc : ∀ descriptors,
      batch = map VObject descriptors →
      (∀ k, k ∈ normalized_ids (_segmentIdCounter (this w)) descriptors →
            byId w !! k = None) →
      _segmentIdCounter (this w')
      = N.max (_segmentIdCounter (this w))
          (N.min (_segmentIdCounter (this w)
                  + N.of_nat (length (List.filter omits_id descriptors)))
             counter_limit)
      ∧ _colorIndex (this w')
        = if randomizeSegmentColor (options w)
          then Nat.iter (length (List.filter omits_color descriptors))
                 next_colorIndex (_colorIndex (this w))
          else _colorIndex (this w)).
  { intros descriptors -> Hfree.
    destruct (normalization_passes descriptors w Hfree)
      as (w1 & segments & Hm & _ & _ & _ & _ & Hcnt & Hcol & _).
    subst w'. rewrite Hm. simpl.
    by rewrite Hcnt, Hcol, counter_after_batch_count, colorIndex_after_batch_count. }
  split; [|done].
  clear Hdesc Hun. subst w'. revert w.
  induction batch as [|v batch IH]; intros w; simpl; [lia|].
  unfold bind at 1. unfold add_check at 1. unfold bind at 1.
  unfold _createSegment.
  destruct (isObject v) as [o|]; [|simpl; lia].
  destruct (_createSegment_object o w)
    as (w1 & s & Hc & _ & _ & _ & _ & Hcnt & _).
  unfold _createSegment in Hc. simpl in Hc. rewrite Hc.
  unfold bind at 1, read at 1.
  assert (Hle : (_segmentIdCounter (this w) ≤ _segmentIdCounter (this w1))%N).
  { rewrite Hcnt. apply counter_after_ge. }
  destruct (objectHasProperty _ _); simpl; [done|].
  unfold bind at 1. specialize (IH w1).
  destruct (array_map add_check batch w1) as [w2 [segments|e]]; simpl in *; lia.
Qed.

(** Three descriptors, two of them without an id and none with a color, for
    a new repository whose host asks for randomized colors. *)
Lemma normalization_effects_witness :
  let batch := [descriptor None 0 10; descriptor (Some "b"%string) 1 2;
                descriptor None 3 4] in
  let w' := fst (array_map add_check (map VObject batch) (constructor random_peaks)) in
  _segmentIdCounter (this w') = 2%N ∧ _colorIndex (this w') = 3.
Proof.
  intros batch w'.
  destruct (normalization_effects (map VObject batch) (constructor random_peaks))
    as (_ & _ & _ & _ & Hbatch).
  apply (Hbatch batch).
  - reflexivity.
  - intros k _. reflexivity.
Defined.

(** ** Sequences of calls *)







(** ** C7: automatic ids *)






Global Instance counter_bounded_preorder : PreOrder counter_bounded.
Proof.
  split.
  - intros w Hw. exact Hw.
  - intros a b c Hab Hbc Ha. by apply Hbc, Hab.
Qed.




(** Two descriptors without ids added one after the other. *)
Example automatic_ids_scenario :
  let w1 := run_call (CallAdd [VObject (descriptor None 0 10)]) (constructor plain_peaks) in
  let w2 := run_call (CallAdd [VObject (descriptor None 20 30)]) w1 in
  map Segment.id (ordered w1) = ["peaks.segment.0"]%string
  ∧ map Segment.id (ordered w2) = ["peaks.segment.0"; "peaks.segment.1"]%string
  ∧ _segmentIdCounter (this w2) = 2%N.
Proof. repeat split; reflexivity. Qed.

(** ** C1: consistency of the two indexes *)

(** C1. The code does not keep the invariant: one call of [add] with a batch
    of two descriptors that both carry the id ["a"] leaves two segments in
    [ordered] and one entry in [byId]; each of the three parts of the
    invariant fails in that state. *)
Theorem add_breaks_consistency :
  let batch := [VObject (descriptor (Some "a"%string) 0 10);
                VObject (descriptor (Some "a"%string) 20 30)] in
  let w := run_calls [CallAdd [VArray batch]] (constructor plain_peaks) in
  length (ordered w) = 2
  ∧ size (byId w) = 1
  ∧ map Segment.id (ordered w) = ["a"; "a"]%string
  ∧ (∃ s, s ∈ ordered w ∧ byId w !! Segment.id s ≠ Some s)
  ∧ ¬ NoDup (map Segment.id (ordered w))
  ∧ ¬ consistent w
  ∧ ¬ always_consistent.
Proof.
  intros batch w.
  assert (H2 : length (ordered w) = 2) by (by vm_compute).
  assert (H1 : size (byId w) = 1) by (by vm_compute).
  assert (Hids : map Segment.id (ordered w) = ["a"; "a"]%string) by (by vm_compute).
  assert (Hbad : ¬ consistent w).
  { intros (_ & Hlen & _). rewrite H2, H1 in Hlen. discriminate Hlen. }
  do 3 (split; [done|]).
  split.
  { exists (Segment.Build 0 "a" (JsNumber.of_Z 0) (JsNumber.of_Z 10)
              (Some "#ff0000"%string) "" false).
    split.
    - assert (Ho : ordered w !! 0
                   = Some (Segment.Build 0 "a" (JsNumber.of_Z 0) (JsNumber.of_Z 10)
                             (Some "#ff0000"%string) "" false)) by (by vm_compute).
      by eapply list_elem_of_lookup_2.
    - vm_compute. intros [=]. }
  split.
  { rewrite Hids. intros Hnd%NoDup_cons. destruct Hnd as [Hnot _].
    apply Hnot, list_elem_of_here. }
  split; [done|].
  intros H. apply Hbad. apply (H plain_peaks [CallAdd [VArray batch]]).
Qed.

(** ** Where the invariant does hold *)

Lemma NoDup_map_inj_on {A B} (f : A → B) (l : list A) (x y : A) :
  NoDup (map f l) → x ∈ l → y ∈ l → f x = f y → x = y.
Proof.
  induction l as [|a l IH]; simpl; [by intros _ ?%elem_of_nil|].
  intros [Ha Hnd]%NoDup_cons [->|Hx]%elem_of_cons [->|Hy]%elem_of_cons Hf.
  - done.
  - exfalso. apply Ha. rewrite Hf. apply list_elem_of_In, in_map.
    by apply list_elem_of_In.
  - exfalso. apply Ha. rewrite <- Hf. apply list_elem_of_In, in_map.
    by apply list_elem_of_In.
  - by apply IH.
Qed.

Lemma NoDup_map_filter {A B} (f : A → B) (p : A → bool) (l : list A) :
  NoDup (map f l) → NoDup (map f (List.filter p l)).
Proof.
  induction l as [|a l IH]; simpl; [done|].
  intros [Ha Hnd]%NoDup_cons. destruct (p a); simpl; [|by apply IH].
  apply NoDup_cons. split; [|by apply IH].
  intros Hin. apply Ha.
  apply list_elem_of_In, in_map_iff in Hin as (x & Hfx & Hx).
  apply filter_In in Hx as [Hx _].
  rewrite <- Hfx. by apply list_elem_of_In, in_map.
Qed.

Lemma elem_of_map_id (l : list Segment.t) (k : string) :
  k ∈ map Segment.id l ↔ ∃ s, s ∈ l ∧ Segment.id s = k.
Proof.
  rewrite list_elem_of_In, in_map_iff. split.
  - intros (s & ? & ?%list_elem_of_In). by exists s.
  - intros (s & ?%list_elem_of_In & ?). by exists s.
Qed.

Lemma linked_consistent (w : World) : linked w → consistent w.
Proof.
  intros [Hnd Hlink]. split; [|split; [|done]].
  - intros s Hs. by apply Hlink.
  - rewrite <- length_map_to_list.
    rewrite <- (length_map (λ s, (Segment.id s, s)) (ordered w)).
    apply Permutation_length, NoDup_Permutation.
    + clear Hlink. induction (ordered w) as [|a l IH]; simpl; [constructor|].
      apply NoDup_cons in Hnd as [Ha Hnd]. apply NoDup_cons. split; [|by apply IH].
      intros (s & [= Hid Hs] & Hin%list_elem_of_In)%list_elem_of_In%in_map_iff.
      apply Ha. rewrite <- Hid. by apply list_elem_of_In, in_map, list_elem_of_In.
    + apply NoDup_map_to_list.
    + intros [k v]. rewrite elem_of_map_to_list, Hlink.
      rewrite list_elem_of_In, in_map_iff. split.
      * intros (s & [= <- <-] & Hin%list_elem_of_In). done.
      * intros [Hin <-]. exists v. split; [done|]. by apply list_elem_of_In.
Qed.

Lemma constructor_linked (peaks : PeaksOptions) : linked (constructor peaks).
Proof.
  split.
  - constructor.
  - intros k v. unfold byId, ordered, array_get. simpl.
    rewrite lookup_empty. split; [done|]. by intros [?%elem_of_nil _].
Qed.

Lemma removeAll_linked (w : World) : linked (fst (removeAll w)).
Proof.
  assert (Hord : ordered (fst (removeAll w)) = []).
  { unfold ordered, array_get. simpl. by rewrite lookup_insert_eq. }
  split.
  - rewrite Hord. constructor.
  - intros k v. rewrite Hord. unfold byId. simpl.
    rewrite lookup_empty. split; [done|]. by intros [?%elem_of_nil _].
Qed.

Lemma _removeSegments_linked (predicate : Segment.t → bool) (w : World) :
  linked w → linked (fst (_removeSegments predicate w)).
Proof.
  intros [Hnd Hlink].
  destruct (removal_by_predicate_frame predicate w)
    as (w' & Hrun & Hord & Hby).
  rewrite Hrun. simpl. split.
  - rewrite Hord. by apply NoDup_map_filter.
  - intros k v. rewrite Hby, Hord, elem_of_filter_bool, negb_true_iff.
    case_decide as Hk.
    + split; [done|]. intros [[Hv Hp] Hid]. exfalso.
      apply elem_of_map_id in Hk as (r & [Hr Hpr]%elem_of_filter_bool & Hidr).
      assert (r = v) as -> by (apply (NoDup_map_inj_on Segment.id (ordered w));
                               [done..|congruence]).
      congruence.
    + rewrite Hlink. split; [|by intros [[? _] ?]].
      intros [Hv Hid]. split; [|done]. split; [done|].
      destruct (predicate v) eqn:Hp; [|done]. exfalso. apply Hk.
      apply elem_of_map_id. exists v. split; [|done].
      by apply elem_of_filter_bool.
Qed.

Lemma lookup_insert_all (segments : list Segment.t) (m : gmap string Segment.t)
    (k : string) (v : Segment.t) :
  NoDup (map Segment.id segments) →
  insert_all segments m !! k = Some v
  ↔ (v ∈ segments ∧ Segment.id v = k)
    ∨ ((k ∉ map Segment.id segments) ∧ m !! k = Some v).
Proof.
  unfold insert_all. revert m.
  induction segments as [|s segments IH]; intros m; simpl.
  - intros _. split.
    + intros H. right. split; [apply not_elem_of_nil | done].
    + by intros [[?%elem_of_nil _]|[_ ?]].
  - intros [Hs Hnd]%NoDup_cons. rewrite (IH _ Hnd). rewrite lookup_insert.
    rewrite elem_of_cons, not_elem_of_cons. split.
    + intros [[Hv Hid]|[Hk Hm]]; [left; by split; [right|] |].
      case_decide as Heq.
      * injection Hm as <-. left. by split; [left|].
      * right. split; [|done]. split; [congruence | done].
    + intros [[[->|Hv] Hid]|[[Hne Hk] Hm]].
      * right. subst k. split; [done|]. by rewrite decide_True.
      * left. by split.
      * right. split; [done|]. by rewrite decide_False by congruence.
Qed.

Lemma add_linked (arguments : list value) (w : World) :
  linked w → batch_ids_proper w (CallAdd arguments) →
  linked (fst (add arguments w)).
Proof.
  intros [Hnd Hlink] Hdistinct. simpl in Hdistinct.
  destruct (array_map add_check (add_batch arguments) w) as [w1 [segments|e]] eqn:Hm.
  2:{ destruct (add_throws _ _ _ _ Hm) as (Hadd & Hord & Hby & _).
      rewrite Hadd. simpl. unfold linked. by rewrite Hord, Hby. }
  destruct (normalization_returns_objects _ _ _ _ Hm) as (batch & Hbatch).
  specialize (Hdistinct batch Hbatch).
  assert (Hfree : ∀ k, k ∈ normalized_ids (_segmentIdCounter (this w)) batch →
                       byId w !! k = None).
  { intros k Hk. destruct (byId w !! k) as [v|] eqn:Hkv; [|done]. exfalso.
    destruct (normalization_rejects batch w) as (w2 & Hrej).
    { exists k. by rewrite Hkv. }
    rewrite <- Hbatch, Hm in Hrej. discriminate Hrej. }
  destruct (normalization_passes batch w Hfree) as (w2 & segments' & Hm' & Hids & _).
  rewrite <- Hbatch, Hm in Hm'. injection Hm' as <- <-.
  destruct (add_returns _ _ _ _ Hm) as (w' & Hadd & Hord & _).
  destruct Hdistinct as [Hdistinct Hplain].
  rewrite <- Hids in Hdistinct, Hfree, Hplain.
  destruct (add_returns_plain _ _ _ _ Hm Hplain) as [Hby _].
  rewrite Hadd in Hby |- *. simpl in Hby |- *. split.
  - rewrite Hord, map_app. apply NoDup_app. split; [done|]. split; [|done].
    intros k (s & Hs & <-)%elem_of_map_id Hk.
    apply Hfree in Hk. assert (byId w !! Segment.id s = Some s) by (by apply Hlink).
    congruence.
  - intros k v. rewrite Hby, Hord, (lookup_insert_all _ _ _ _ Hdistinct), elem_of_app.
    rewrite Hlink. split.
    + intros [[? ?]|[_ [? ?]]]; split; auto.
    + intros [[Hv|Hv] Hid]; [|left; by split].
      right. split; [|by split]. intros Hk%Hfree.
      assert (byId w !! k = Some v) by (by apply Hlink). congruence.
Qed.

Lemma run_call_linked (c : call) (w : World) :
  linked w → batch_ids_proper w c → linked (run_call c w).
Proof.
  intros Hw Hc. destruct c; simpl; try done.
  - by apply add_linked.
  - by apply _removeSegments_linked.
  - by apply _removeSegments_linked.
  - by apply _removeSegments_linked.
  - apply removeAll_linked.
Qed.

Lemma constructor_plain (peaks : PeaksOptions) : plain_index (constructor peaks).
Proof. split; [done | apply lookup_empty]. Qed.

Lemma add_plain (arguments : list value) (w : World) :
  plain_index w → batch_ids_proper w (CallAdd arguments) →
  plain_index (fst (add arguments w)).
Proof.
  intros [Hprototype Hkey] Hproper. simpl in Hproper.
  destruct (array_map add_check (add_batch arguments) w) as [w1 [segments|e]] eqn:Hm.
  2:{ destruct (add_throws _ _ _ _ Hm) as (Hadd & _ & Hby & _).
      pose proof (normalization_keeps_prototype (add_batch arguments) w) as Hkept.
      rewrite Hm in Hkept. unfold prototype_kept in Hkept. simpl in Hkept.
      rewrite Hadd. simpl. unfold plain_index. by rewrite Hkept, Hby. }
  destruct (add_return_inversion _ _ _ _ Hm) as (batch & Hbatch & _ & Hids & _).
  destruct (Hproper batch Hbatch) as [Hnd Hproto]. rewrite <- Hids in Hnd, Hproto.
  destruct (add_returns_plain _ _ _ _ Hm Hproto) as [Hby Hkept].
  split; [by rewrite Hkept|]. rewrite Hby.
  destruct (insert_all segments (byId w) !! "__proto__"%string) as [v|] eqn:Hv; [|done].
  apply (lookup_insert_all _ _ _ _ Hnd) in Hv as [[Hv Hid]|[_ Hv]]; [|congruence].
  exfalso. apply Hproto. rewrite <- Hid. by apply list_elem_of_In, in_map, list_elem_of_In.
Qed.

Lemma _removeSegments_plain (predicate : Segment.t → bool) (w : World) :
  plain_index w → plain_index (fst (_removeSegments predicate w)).
Proof.
  intros [Hprototype Hkey].
  pose proof (_removeSegments_keeps_prototype predicate w) as Hkept.
  destruct (removal_by_predicate_frame predicate w) as (w' & Hrun & _ & Hby).
  rewrite Hrun in *. simpl in *. unfold prototype_kept in Hkept.
  split; [congruence|]. rewrite Hby. by case_decide.
Qed.

Lemma run_call_plain (c : call) (w : World) :
  plain_index w → batch_ids_proper w c → plain_index (run_call c w).
Proof.
  intros Hw Hc. destruct c; simpl; try done.
  - by apply add_plain.
  - by apply _removeSegments_plain.
  - by apply _removeSegments_plain.
  - by apply _removeSegments_plain.
Qed.

Lemma run_calls_proper (calls : list call) (w : World) :
  linked w → plain_index w → batches_ids_proper calls w →
  linked (run_calls calls w) ∧ plain_index (run_calls calls w).
Proof.
  revert w. induction calls as [|c calls IH]; intros w Hlinked Hplain Hcalls; [done|].
  destruct Hcalls as [Hc Hcalls]. simpl.
  apply IH; [by apply run_call_linked | by apply run_call_plain | done].
Qed.

(** X1. Short of the gap of C4 and of the name [__proto__] the invariant of
    C1 holds: after any sequence of public calls on a new repository in which
    no [add] batch gives the same id to two of its descriptors, or the id
    [__proto__] to one, the two indexes are consistent, and the index object
    is as [{}] made it. *)
Lemma consistent_with_proper_batch_ids (peaks : PeaksOptions) (calls : list call) :
  batches_ids_proper calls (constructor peaks) →
  consistent (run_calls calls (constructor peaks))
  ∧ plain_index (run_calls calls (constructor peaks)).
Proof.
  intros H.
  destruct (run_calls_proper calls (constructor peaks)) as [Hlinked Hplain];
    [apply constructor_linked | apply constructor_plain | done |].
  split; [by apply linked_consistent | done].
Qed.

(** * Further properties of the class *)

(** ** What the methods leave in place *)

Global Instance method_frame_preorder : PreOrder method_frame.
Proof.
  split.
  - intros w. unfold method_frame. repeat split; auto.
  - intros a b c (?&?&?&?&?) (?&?&?&?&?). unfold method_frame.
    repeat split; try congruence; [lia | auto].
Qed.

Lemma keeps_array_forEach (R : relation World) `{!PreOrder R} {A}
    (f : A → M unit) (l : list A) :
  (∀ x, keeps R (f x)) → keeps R (array_forEach f l).
Proof.
  intros Hf. induction l as [|x l IH]; simpl; keeps_split; auto.
Qed.

Lemma _getNextSegmentId_frame : keeps method_frame _getNextSegmentId.
Proof. intros w. unfold method_frame. simpl. repeat split; auto. Qed.

Lemma _getSegmentColor_frame : keeps method_frame _getSegmentColor.
Proof.
  intros w. unfold method_frame, _getSegmentColor.
  destruct (randomizeSegmentColor (options w)); simpl; repeat split; auto.
  intros Hlt. destruct (Nat.eqb_spec (_colorIndex (this w)) 9); lia.
Qed.

Lemma new_Segment_frame i st et c lt ed :
  keeps method_frame (new_Segment i st et c lt ed).
Proof. intros w. unfold method_frame. simpl. repeat split; auto. Qed.

Lemma _createSegment_frame (v : value) : keeps method_frame (_createSegment v).
Proof.
  unfold _createSegment. destruct (isObject v) as [o|]; keeps_split.
  - destruct (Options.id o); [keeps_split | apply _getNextSegmentId_frame].
  - destruct (Options.color o); [keeps_split | apply _getSegmentColor_frame].
  - apply new_Segment_frame.
Qed.

Lemma add_check_frame (v : value) : keeps method_frame (add_check v).
Proof.
  unfold add_check. keeps_split; [apply _createSegment_frame|].
  destruct (objectHasProperty _ _); keeps_split.
Qed.

Lemma _addSegment_frame (s : Segment.t) : keeps method_frame (_addSegment s).
Proof.
  unfold _addSegment. keeps_split;
    intros w; unfold method_frame; simpl;
    try destruct (index_assign_frame (Segment.id s) s (this w)) as (-> & _ & ->);
    repeat split; auto.
Qed.

Lemma emit_frame (e : Event) : keeps method_frame (emit e).
Proof. intros w. unfold method_frame. simpl. repeat split; auto. Qed.

Lemma add_frame (arguments : list value) : keeps method_frame (add arguments).
Proof.
  unfold add. keeps_split.
  - apply keeps_array_map; [apply _|]. apply add_check_frame.
  - apply keeps_array_forEach; [apply _|]. apply _addSegment_frame.
  - apply emit_frame.
Qed.

Lemma _removeIndexes_loop_frame (indexes : list Z) (removed : list Segment.t) :
  keeps method_frame (_removeIndexes_loop indexes removed).
Proof.
  revert removed. induction indexes as [|ix indexes IH]; intros removed; simpl.
  - keeps_split.
  - keeps_split.
    + intros w. unfold method_frame. simpl. repeat split; auto.
    + match goal with |- keeps _ (match ?o with _ => _ end) => destruct o end;
        keeps_split; [|apply IH].
      intros w. unfold method_frame. simpl. repeat split; auto.
Qed.

Lemma _removeSegments_frame (predicate : Segment.t → bool) :
  keeps method_frame (_removeSegments predicate).
Proof.
  unfold _removeSegments. keeps_split.
  - apply _removeIndexes_loop_frame.
  - apply emit_frame.
Qed.

(** ** Worlds that calls can reach *)

Lemma constructor_well_formed (peaks : PeaksOptions) : well_formed (constructor peaks).
Proof.
  unfold well_formed, store_ok, cursor_in_range, identities_fresh. simpl.
  split; [lia|]. split; [lia|]. split; [constructor|].
  by intros s ?%elem_of_nil.
Qed.

Lemma add_well_formed (arguments : list value) (w : World) :
  well_formed w → well_formed (fst (add arguments w)).
Proof.
  intros (Hstore & Hcursor & Hnd & Hold).
  destruct (add_frame arguments w) as (Hna & Hseg & _ & Hno & Hcur).
  split; [unfold store_ok; by rewrite Hna, Hseg|].
  split; [by apply Hcur|].
  destruct (array_map add_check (add_batch arguments) w) as [w1 [segments|e]] eqn:Hm.
  - destruct (add_return_inversion _ _ _ _ Hm) as (batch & _ & _ & _ & Hrefs & Hobj).
    destruct (add_returns _ _ _ _ Hm) as (w' & Hadd & Hord & _ & _ & _ & _ & _ & _ & Hobj').
    rewrite Hadd in *. simpl in *. unfold identities_fresh.
    rewrite Hord, map_app, Hrefs, Hobj', Hobj. split.
    + apply NoDup_app. split; [done|]. split; [|apply NoDup_seq].
      intros r Hr_old Hr_new.
      apply list_elem_of_In, in_map_iff in Hr_old as (s & <- & Hs).
      apply list_elem_of_In, Hold in Hs.
      apply list_elem_of_In, in_seq in Hr_new. lia.
    + intros s [Hs|Hs]%elem_of_app; [apply Hold in Hs; lia|].
      assert (Hr : Segment.ref s ∈ seq (next_object w) (length batch)).
      { rewrite <- Hrefs. by apply list_elem_of_In, in_map, list_elem_of_In. }
      apply list_elem_of_In, in_seq in Hr. lia.
  - destruct (add_throws _ _ _ _ Hm) as (Hadd & Hord & _).
    rewrite Hadd in *. simpl in *. unfold identities_fresh. rewrite Hord.
    split; [done|]. intros s Hs%Hold. lia.
Qed.

Lemma _removeSegments_well_formed (predicate : Segment.t → bool) (w : World) :
  well_formed w → well_formed (fst (_removeSegments predicate w)).
Proof.
  intros (Hstore & Hcursor & Hnd & Hold).
  destruct (_removeSegments_frame predicate w) as (Hna & Hseg & _ & Hno & Hcur).
  split; [unfold store_ok; by rewrite Hna, Hseg|].
  split; [by apply Hcur|].
  destruct (_removeSegments_run predicate w) as (w' & Hrun & Hord & _).
  rewrite Hrun in *. simpl in *. unfold identities_fresh. rewrite Hord. split.
  - by apply NoDup_map_filter.
  - intros s [Hs%Hold _]%elem_of_filter_bool. lia.
Qed.

Lemma removeAll_well_formed (w : World) :
  well_formed w → well_formed (fst (removeAll w)).
Proof.
  intros (Hstore & Hcursor & _).
  assert (Hord : ordered (fst (removeAll w)) = []).
  { unfold ordered, array_get. simpl. by rewrite lookup_insert_eq. }
  split; [unfold store_ok; simpl; lia|]. split; [done|].
  unfold identities_fresh. rewrite Hord. split; [constructor|].
  by intros s ?%elem_of_nil.
Qed.

Lemma run_call_well_formed (c : call) (w : World) :
  well_formed w → well_formed (run_call c w).
Proof.
  intros Hw. destruct c; simpl; try done.
  - by apply add_well_formed.
  - by apply _removeSegments_well_formed.
  - by apply _removeSegments_well_formed.
  - by apply _removeSegments_well_formed.
  - by apply removeAll_well_formed.
Qed.

Lemma run_calls_well_formed (peaks : PeaksOptions) (calls : list call) :
  well_formed (run_calls calls (constructor peaks)).
Proof.
  pose proof (constructor_well_formed peaks) as Hw.
  revert Hw. generalize (constructor peaks).
  induction calls as [|c calls IH]; intros w Hw; [done|].
  simpl. by apply IH, run_call_well_formed.
Qed.

Lemma run_calls_linked (peaks : PeaksOptions) (calls : list call) :
  batches_ids_proper calls (constructor peaks) →
  linked (run_calls calls (constructor peaks)).
Proof.
  pose proof (constructor_linked peaks) as Hw.
  revert Hw. generalize (constructor peaks).
  induction calls as [|c calls IH]; intros w Hw Hcalls; [done|].
  destruct Hcalls as [Hc Hcalls]. simpl. apply IH; [|done].
  by apply run_call_linked.
Qed.

(** ** Sequences of calls that keep the invariant *)

Lemma map_VObject_inj (batch batch' : list Options.t) :
  map VObject batch = map VObject batch' → batch = batch'.
Proof.
  revert batch'. induction batch as [|o batch IH]; intros [|o' batch']; try done.
  simpl. intros [= -> H]. f_equal. by apply IH.
Qed.

(** Three adds, one of a batch, and removals in between. *)
Lemma consistent_with_proper_batch_ids_witness :
  let calls := [CallAdd [VObject (descriptor None 0 10)];
                CallAdd [VArray [VObject (descriptor (Some "a"%string) 10 20);
                                 VObject (descriptor None 20 30)]];
                CallRemoveById "a";
                CallAdd [VObject (descriptor (Some "a"%string) 5 6)];
                CallRemoveByTime (JsNumber.of_Z 0) VUndefined] in
  consistent (run_calls calls (constructor plain_peaks))
  ∧ plain_index (run_calls calls (constructor plain_peaks)).
Proof.
  intros calls. apply consistent_with_proper_batch_ids.
  refine (conj _ (conj _ (conj I (conj _ (conj I I))))).
  - intros batch Hbatch.
    apply (map_VObject_inj [descriptor None 0 10]) in Hbatch. subst batch.
    split; apply (bool_decide_unpack _); vm_compute; exact I.
  - intros batch Hbatch.
    apply (map_VObject_inj [descriptor (Some "a"%string) 10 20; descriptor None 20 30])
      in Hbatch. subst batch.
    split; apply (bool_decide_unpack _); vm_compute; exact I.
  - intros batch Hbatch.
    apply (map_VObject_inj [descriptor (Some "a"%string) 5 6]) in Hbatch. subst batch.
    split; apply (bool_decide_unpack _); vm_compute; exact I.
Defined.

(** ** Exceptions of [add] *)

(** A batch whose second value is a string, for a repository with one
    segment: the first descriptor has used up an automatic id, and nothing
    was inserted. *)
Lemma add_throw_atomic_witness :
  let w' := fst (add [VArray [VObject (descriptor None 0 10); VString "10"]] holds_2_5) in
  ordered w' = ordered holds_2_5
  ∧ byId w' = byId holds_2_5
  ∧ emitted w' = emitted holds_2_5.
Proof.
  intros w'.
  apply (add_throw_atomic [VArray [VObject (descriptor None 0 10); VString "10"]]
           holds_2_5 w' not_an_object).
  reflexivity.
Defined.

Lemma normalization_non_object (batch : list value) (v : value) (w : World) :
  v ∈ batch → isObject v = None →
  ∃ w1 e, array_map add_check batch w = (w1, Throw e).
Proof.
  intros Hv Hno.
  destruct (array_map add_check batch w) as [w1 [segments|e]] eqn:Hm; [|by eauto].
  exfalso. destruct (normalization_returns_objects _ _ _ _ Hm) as (descriptors & ->).
  apply list_elem_of_In, in_map_iff in Hv as (o & <- & _). discriminate Hno.
Qed.

(** X3. A batch that holds a value that is not a descriptor object is never
    inserted: [add] throws, either the type error or, when a descriptor before
    that value has a taken id, the duplicate-id error, and [ordered], [byId]
    and the notifications are as before.  When the value comes first, as in
    the old call [add(startTime, endTime)], it is the type error and the world
    is exactly as before. *)
Theorem add_rejects_non_object (arguments : list value) (v : value) (w : World) :
  isObject v = None →
  (v ∈ add_batch arguments →
   ∃ w' e, add arguments w = (w', Throw e)
           ∧ (e = TypeError "peaks.segments.add(): expected a Segment object parameter"
              ∨ e = Error "peaks.segments.add(): duplicate id")
           ∧ ordered w' = ordered w ∧ byId w' = byId w ∧ emitted w' = emitted w)
  ∧ (head (add_batch arguments) = Some v →
     add arguments w
     = (w, Throw (TypeError "peaks.segments.add(): expected a Segment object parameter"))).
Proof.
  intros Hno. split.
  - intros Hv.
    destruct (normalization_non_object _ _ w Hv Hno) as (w1 & e & Hm).
    destruct (add_throws _ _ _ _ Hm) as (Hadd & Hrest).
    exists w1, e. split; [done|]. split; [|done].
    by apply (normalization_outcomes _ _ _ _ Hm).
  - intros Hhead. unfold add, bind.
    destruct (add_batch arguments) as [|v' rest]; [done|].
    injection Hhead as ->. simpl. unfold bind, add_check, bind, _createSegment.
    by rewrite Hno.
Qed.

Lemma add_rejects_non_object_witness :
  (∃ w' e, add [VArray [VObject (descriptor None 0 10); VString "10"]] holds_2_5
           = (w', Throw e)
           ∧ (e = TypeError "peaks.segments.add(): expected a Segment object parameter"
              ∨ e = Error "peaks.segments.add(): duplicate id")
           ∧ ordered w' = ordered holds_2_5 ∧ byId w' = byId holds_2_5
           ∧ emitted w' = emitted holds_2_5)
  ∧ add [VNumber (JsNumber.of_Z 0); VNumber (JsNumber.of_Z 10)] holds_2_5
    = (holds_2_5,
       Throw (TypeError "peaks.segments.add(): expected a Segment object parameter")).
Proof.
  split.
  - apply (add_rejects_non_object _ (VString "10") holds_2_5); [reflexivity|].
    apply (list_elem_of_lookup_2 _ 1). reflexivity.
  - apply (add_rejects_non_object _ (VNumber (JsNumber.of_Z 0)) holds_2_5);
      reflexivity.
Defined.

(** ** Lookup by id after [add] and after [removeById] *)

(** X4. After [add] of a batch of descriptors whose normalized ids are
    pairwise different, all free, and none of them [__proto__], [getSegment]
    finds each inserted segment under its id, and answers for every other id
    what it answered before. *)
Theorem add_then_getSegment (arguments : list value) (batch : list Options.t)
    (w : World) :
  add_batch arguments = map VObject batch →
  NoDup (normalized_ids (_segmentIdCounter (this w)) batch) →
  ("__proto__"%string ∉ normalized_ids (_segmentIdCounter (this w)) batch) →
  (∀ k, k ∈ normalized_ids (_segmentIdCounter (this w)) batch → byId w !! k = None) →
  ∃ w' segments,
    add arguments w = (w', Return tt)
    ∧ ordered w' = ordered w ++ segments
    ∧ map Segment.id segments = normalized_ids (_segmentIdCounter (this w)) batch
    ∧ (∀ s, s ∈ segments → getSegment (Segment.id s) w' = (w', Return (Found s)))
    ∧ (∀ k, k ∉ normalized_ids (_segmentIdCounter (this w)) batch →
            snd (getSegment k w') = snd (getSegment k w)).
Proof.
  intros Hbatch Hnd Hproto Hfree.
  destruct (normalization_passes batch w Hfree) as (w1 & segments & Hm & Hids & _).
  rewrite <- Hbatch in Hm. rewrite <- Hids in Hnd, Hproto.
  destruct (add_returns _ _ _ _ Hm) as (w' & Hadd & Hord & _).
  destruct (add_returns_plain _ _ _ _ Hm Hproto) as [Hby Hprototype].
  rewrite Hadd in Hby, Hprototype. simpl in Hby, Hprototype.
  exists w', segments. do 3 (split; [done|]).
  unfold getSegment. fold (byId w'). rewrite Hby, Hprototype. split.
  - intros s Hs.
    assert (Hfound : insert_all segments (byId w) !! Segment.id s = Some s)
      by (apply (lookup_insert_all _ _ _ _ Hnd); left; by split).
    by rewrite Hfound.
  - intros k Hk. simpl. f_equal. fold (byId w). rewrite <- Hids in Hk.
    assert (Hsame : insert_all segments (byId w) !! k = byId w !! k);
      [|by rewrite Hsame].
    destruct (byId w !! k) as [v|] eqn:Hkv.
    + apply (lookup_insert_all _ _ _ _ Hnd). right. by split.
    + destruct (insert_all segments (byId w) !! k) as [v|] eqn:Hkv'; [|done].
      apply (lookup_insert_all _ _ _ _ Hnd) in Hkv' as [[Hv <-]|[_ Hv]]; [|congruence].
      exfalso. apply Hk. by apply list_elem_of_In, in_map, list_elem_of_In.
Qed.

(** Two descriptors, one with the id ["b"] and one without, for the
    repository that holds ["s"]. *)
Lemma add_then_getSegment_witness :
  ∃ w' segments,
    add [VObject (descriptor (Some "b"%string) 5 6); VObject (descriptor None 6 7)]
      holds_2_5 = (w', Return tt)
    ∧ ordered w' = ordered holds_2_5 ++ segments
    ∧ map Segment.id segments = ["b"; "peaks.segment.0"]%string
    ∧ (∀ s, s ∈ segments → getSegment (Segment.id s) w' = (w', Return (Found s)))
    ∧ (∀ k, k ∉ ["b"; "peaks.segment.0"]%string →
            snd (getSegment k w') = snd (getSegment k holds_2_5)).
Proof.
  apply (add_then_getSegment _
           [descriptor (Some "b"%string) 5 6; descriptor None 6 7] holds_2_5).
  - reflexivity.
  - apply (bool_decide_unpack _). vm_compute. exact I.
  - apply (bool_decide_unpack _). vm_compute. exact I.
  - intros k Hk.
    apply elem_of_cons in Hk as [->|Hk]; [reflexivity|].
    apply elem_of_cons in Hk as [->|Hk]; [reflexivity|].
    by apply elem_of_nil in Hk.
Defined.

Lemma filter_by_key_length {A B} `{EqDecision B} (f : A → B) (l : list A) (x : B) :
  NoDup (map f l) → length (List.filter (λ a, bool_decide (f a = x)) l) ≤ 1.
Proof.
  induction l as [|a l IH]; simpl; [lia|].
  intros [Ha Hnd]%NoDup_cons. specialize (IH Hnd).
  case_bool_decide as Hfa; simpl; [|done].
  destruct (List.filter (λ a, bool_decide (f a = x)) l) as [|b bs] eqn:Hf; [simpl; lia|].
  exfalso. apply Ha.
  assert (Hb : In b (List.filter (λ a, bool_decide (f a = x)) l))
    by (rewrite Hf; by left).
  apply filter_In in Hb as [Hb Hfb%bool_decide_eq_true].
  rewrite Hfa, <- Hfb. by apply list_elem_of_In, in_map.
Qed.

(** X5. In a repository whose indexes are linked, [removeById(id)] removes
    at most one segment, the one that [byId] held under the id; afterwards
    no segment of [ordered] has the id and the id is no key of [byId], so
    that [getSegment(id)] answers what the prototype chain of the index
    object holds under that name: [null] when the index object is as [{}]
    made it and the id is no member of [Object.prototype].  The answer for
    every other id is as before, and the indexes are still linked. *)
Theorem removeById_linked (segmentId : string) (w : World) :
  linked w →
  ∃ w' removed,
    removeById segmentId w = (w', Return removed)
    ∧ length removed ≤ 1
    ∧ (∀ s, s ∈ removed → Segment.id s = segmentId ∧ byId w !! segmentId = Some s)
    ∧ (∀ s, s ∈ ordered w' → Segment.id s ≠ segmentId)
    ∧ byId w' !! segmentId = None
    ∧ getSegment segmentId w'
      = (w', Return (inherited (_segmentsById_prototype (this w)) segmentId))
    ∧ (plain_index w → (segmentId ∉ "__proto__"%string :: Object_prototype_members) →
       getSegment segmentId w' = (w', Return Null))
    ∧ (∀ k, k ≠ segmentId → snd (getSegment k w') = snd (getSegment k w))
    ∧ linked w'.
Proof.
  intros Hlinked. pose proof Hlinked as [Hnd Hlink].
  pose proof (_removeSegments_linked
                (λ s, bool_decide (Segment.id s = segmentId)) w Hlinked) as Hlinked'.
  pose proof (_removeSegments_keeps_prototype
                (λ s, bool_decide (Segment.id s = segmentId)) w) as Hprototype.
  destruct (removal_by_predicate_frame
              (λ s, bool_decide (Segment.id s = segmentId)) w)
    as (w' & Hrun & Hord & Hby).
  unfold removeById. rewrite Hrun in *. simpl in Hlinked', Hprototype.
  unfold prototype_kept in Hprototype.
  exists w', (List.filter (λ s, bool_decide (Segment.id s = segmentId)) (ordered w)).
  split; [done|]. split; [by apply filter_by_key_length|].
  assert (Hremoved : ∀ s,
            s ∈ List.filter (λ s, bool_decide (Segment.id s = segmentId)) (ordered w) →
            Segment.id s = segmentId ∧ byId w !! segmentId = Some s).
  { intros s [Hs Hid%bool_decide_eq_true]%elem_of_filter_bool.
    split; [done|]. by apply Hlink. }
  split; [done|]. split.
  { intros s. rewrite Hord.
    intros [_ Hid%negb_true_iff%bool_decide_eq_false]%elem_of_filter_bool. done. }
  assert (Hgone : byId w' !! segmentId = None).
  { rewrite Hby. case_decide as Hin; [done|].
    destruct (byId w !! segmentId) as [v|] eqn:Hv; [|done].
    exfalso. apply Hin. apply Hlink in Hv as [Hv Hid].
    apply elem_of_map_id. exists v. split; [|done].
    apply elem_of_filter_bool. split; [done|]. by apply bool_decide_eq_true. }
  assert (Hget : getSegment segmentId w'
                 = (w', Return (inherited (_segmentsById_prototype (this w)) segmentId))).
  { unfold getSegment. fold (byId w'). by rewrite Hgone, Hprototype. }
  do 2 (split; [done|]). split.
  { intros [Hplain _] Hname. rewrite Hget, Hplain. unfold inherited.
    apply not_elem_of_cons in Hname as [Hproto Hmember].
    by rewrite !bool_decide_eq_false_2. }
  split; [|done].
  intros k Hk. unfold getSegment. simpl. f_equal.
  fold (byId w') (byId w). rewrite Hby, Hprototype.
  case_decide as Hin; [|done].
  apply elem_of_map_id in Hin as (s & [Hid _]%Hremoved & Hsk). congruence.
Qed.

Lemma removeById_linked_witness :
  ∃ w' removed,
    removeById "s" holds_2_5 = (w', Return removed)
    ∧ length removed ≤ 1
    ∧ (∀ s, s ∈ removed → Segment.id s = "s"%string ∧ byId holds_2_5 !! "s"%string = Some s)
    ∧ (∀ s, s ∈ ordered w' → Segment.id s ≠ "s"%string)
    ∧ byId w' !! "s"%string = None
    ∧ getSegment "s" w'
      = (w', Return (inherited (_segmentsById_prototype (this holds_2_5)) "s"))
    ∧ (plain_index holds_2_5 → ("s"%string ∉ "__proto__"%string :: Object_prototype_members) →
       getSegment "s" w' = (w', Return Null))
    ∧ (∀ k, k ≠ "s"%string → snd (getSegment k w') = snd (getSegment k holds_2_5))
    ∧ linked w'.
Proof.
  apply removeById_linked.
  apply (run_calls_linked plain_peaks
           [CallAdd [VObject (descriptor (Some "s"%string) 2 5)]]).
  split; [|exact I].
  intros batch Hbatch.
  apply (map_VObject_inj [descriptor (Some "s"%string) 2 5]) in Hbatch. subst batch.
  split; apply (bool_decide_unpack _); vm_compute; exact I.
Defined.

(** ** Removals that find nothing, and removals done twice *)

Lemma filter_none {A} (p : A → bool) (l : list A) :
  (∀ x, x ∈ l → p x = false) → List.filter p l = [].
Proof.
  induction l as [|a l IH]; intros H; simpl; [done|].
  rewrite (H a) by apply list_elem_of_here.
  apply IH. intros x Hx. by apply H, list_elem_of_further.
Qed.

Lemma filter_all {A} (p : A → bool) (l : list A) :
  (∀ x, x ∈ l → p x = true) → List.filter p l = l.
Proof.
  induction l as [|a l IH]; intros H; simpl; [done|].
  rewrite (H a) by apply list_elem_of_here. f_equal.
  apply IH. intros x Hx. by apply H, list_elem_of_further.
Qed.

Lemma _removeSegments_none (predicate : Segment.t → bool) (w : World) :
  (∀ s, s ∈ ordered w → predicate s = false) →
  ∃ w', _removeSegments predicate w = (w', Return [])
        ∧ ordered w' = ordered w
        ∧ byId w' = byId w
        ∧ emitted w' = emitted w ++ [SegmentsRemove []].
Proof.
  intros Hnone.
  destruct (_removeSegments_run predicate w) as (w' & Hrun & Hord & Hby & Hem & _).
  rewrite (filter_none _ _ Hnone) in Hrun, Hby, Hem.
  rewrite filter_all in Hord
    by (intros s Hs; by rewrite (Hnone s Hs)).
  by exists w'.
Qed.

(** X6. Not finding is no error: [removeById] with an id that no segment of
    [ordered] has, and [remove] with a segment object that is not in
    [ordered], return the empty array, leave [ordered] and [byId] as they
    were, and still emit one notification, with an empty payload. *)
Theorem removal_not_found (w : World) :
  (∀ segmentId,
      (∀ s, s ∈ ordered w → Segment.id s ≠ segmentId) →
      ∃ w', removeById segmentId w = (w', Return [])
            ∧ ordered w' = ordered w ∧ byId w' = byId w
            ∧ emitted w' = emitted w ++ [SegmentsRemove []])
  ∧ (∀ segment,
      (∀ s, s ∈ ordered w → Segment.same s segment = false) →
      ∃ w', remove segment w = (w', Return [])
            ∧ ordered w' = ordered w ∧ byId w' = byId w
            ∧ emitted w' = emitted w ++ [SegmentsRemove []]).
Proof.
  split.
  - intros segmentId Hnone. apply _removeSegments_none.
    intros s Hs. apply bool_decide_eq_false. by apply Hnone.
  - intros segment Hnone. by apply _removeSegments_none.
Qed.

(** The id ["nobody"] and a segment object made elsewhere, for the
    repository that holds [0, 10) and [10, 20). *)
Lemma removal_not_found_witness :
  (∃ w', removeById "nobody" holds_two = (w', Return [])
         ∧ ordered w' = ordered holds_two ∧ byId w' = byId holds_two
         ∧ emitted w' = emitted holds_two ++ [SegmentsRemove []])
  ∧ (∃ w', remove stray_segment holds_two = (w', Return [])
           ∧ ordered w' = ordered holds_two ∧ byId w' = byId holds_two
           ∧ emitted w' = emitted holds_two ++ [SegmentsRemove []]).
Proof.
  destruct (removal_not_found holds_two) as [Hid Hsame]. split.
  - apply Hid. intros s Hs.
    apply elem_of_cons in Hs as [->|Hs]; [by vm_compute|].
    apply elem_of_cons in Hs as [->|Hs]; [by vm_compute|].
    by apply elem_of_nil in Hs.
  - apply Hsame. intros s Hs.
    apply elem_of_cons in Hs as [->|Hs]; [reflexivity|].
    apply elem_of_cons in Hs as [->|Hs]; [reflexivity|].
    by apply elem_of_nil in Hs.
Defined.

(** X7. A removal done a second time removes nothing: whatever the
    predicate, the second run returns the empty array and leaves [ordered]
    and [byId] as the first run left them. *)
Theorem removal_twice (predicate : Segment.t → bool) (w : World) :
  ∃ w1 w2 removed,
    _removeSegments predicate w = (w1, Return removed)
    ∧ _removeSegments predicate w1 = (w2, Return [])
    ∧ ordered w2 = ordered w1
    ∧ byId w2 = byId w1.
Proof.
  destruct (_removeSegments_run predicate w) as (w1 & Hrun & Hord & _).
  destruct (_removeSegments_none predicate w1) as (w2 & Hrun2 & Hord2 & Hby2 & _).
  { intros s. rewrite Hord. by intros [_ ?%negb_true_iff]%elem_of_filter_bool. }
  by exists w1, w2, (List.filter predicate (ordered w)).
Qed.

(** ** [add] undone by [removeById] *)

(** X8. Adding one descriptor under an id that the repository does not use,
    and that is not [__proto__], and removing by that id gives back the two
    indexes as they were, the prototype of the index object included: the
    removal returns the one segment that was added. *)
Theorem add_removeById_round_trip (o : Options.t) (x : string) (w : World) :
  Options.id o = Some x →
  x ≠ "__proto__"%string →
  byId w !! x = None →
  (∀ s, s ∈ ordered w → Segment.id s ≠ x) →
  ∃ w1 w2 s,
    add [VObject o] w = (w1, Return tt)
    ∧ removeById x w1 = (w2, Return [s])
    ∧ Segment.id s = x
    ∧ ordered w1 = ordered w ++ [s]
    ∧ ordered w2 = ordered w
    ∧ byId w2 = byId w
    ∧ _segmentsById_prototype (this w2) = _segmentsById_prototype (this w).
Proof.
  intros Ho Hproto Hfree Hnone.
  assert (Hids : normalized_ids (_segmentIdCounter (this w)) [o] = [x]).
  { simpl. unfold normalized_id. by rewrite Ho. }
  destruct (normalization_passes [o] w) as (w0 & segments & Hm & Hsegs & _).
  { rewrite Hids. intros k ->%list_elem_of_singleton. done. }
  rewrite Hids in Hsegs.
  destruct segments as [|s [|s' segments]]; try discriminate Hsegs.
  injection Hsegs as Hs.
  destruct (add_returns [VObject o] _ _ _ Hm) as (w1 & Hadd & Hord1 & _).
  destruct (add_returns_plain [VObject o] _ _ _ Hm) as [Hby1 Hprototype1].
  { simpl. rewrite Hs. intros Hx%list_elem_of_singleton. by apply Hproto. }
  rewrite Hadd in Hby1, Hprototype1. simpl in Hby1, Hprototype1.
  pose proof (_removeSegments_keeps_prototype
                (λ s, bool_decide (Segment.id s = x)) w1) as Hprototype2.
  destruct (_removeSegments_run (λ s, bool_decide (Segment.id s = x)) w1)
    as (w2 & Hrun & Hord2 & Hby2 & _).
  rewrite Hrun in Hprototype2. unfold prototype_kept in Hprototype2.
  simpl in Hprototype2.
  assert (Hkeep : List.filter (λ s, bool_decide (Segment.id s = x)) (ordered w) = []).
  { apply filter_none. intros s0 Hs0. apply bool_decide_eq_false. by apply Hnone. }
  assert (Hrest : List.filter (λ s, negb (bool_decide (Segment.id s = x))) (ordered w)
                  = ordered w).
  { apply filter_all. intros s0 Hs0. apply negb_true_iff, bool_decide_eq_false.
    by apply Hnone. }
  rewrite Hord1, List.filter_app, Hkeep in Hrun, Hby2.
  rewrite Hord1, List.filter_app, Hrest in Hord2.
  simpl in Hrun, Hby2, Hord2.
  rewrite bool_decide_eq_true_2 in Hrun, Hby2, Hord2 by done.
  simpl in Hrun, Hby2, Hord2. rewrite app_nil_r in Hord2.
  exists w1, w2, s. do 5 (split; [done|]). split; [|congruence].
  rewrite Hby2, Hby1. unfold delete_all, insert_all. simpl. rewrite Hs.
  by apply delete_insert_id.
Qed.

Lemma add_removeById_round_trip_witness :
  ∃ w1 w2 s,
    add [VObject (descriptor (Some "b"%string) 5 6)] holds_2_5 = (w1, Return tt)
    ∧ removeById "b" w1 = (w2, Return [s])
    ∧ Segment.id s = "b"%string
    ∧ ordered w1 = ordered holds_2_5 ++ [s]
    ∧ ordered w2 = ordered holds_2_5
    ∧ byId w2 = byId holds_2_5
    ∧ _segmentsById_prototype (this w2) = _segmentsById_prototype (this holds_2_5).
Proof.
  apply add_removeById_round_trip.
  - reflexivity.
  - discriminate.
  - reflexivity.
  - intros s Hs.
    apply elem_of_cons in Hs as [->|Hs]; [by vm_compute|].
    by apply elem_of_nil in Hs.
Defined.

(** ** Removal of a segment object *)

Lemma filter_same_unique (l : list Segment.t) (s : Segment.t) :
  NoDup (map Segment.ref l) → s ∈ l →
  List.filter (λ x, Segment.same x s) l = [s].
Proof.
  induction l as [|a l IH]; simpl; [by intros _ ?%elem_of_nil|].
  intros [Ha Hnd]%NoDup_cons [->|Hs]%elem_of_cons.
  - unfold Segment.same at 1. rewrite Nat.eqb_refl. f_equal.
    apply filter_none. intros x Hx. apply Nat.eqb_neq. intros Heq.
    apply Ha. rewrite <- Heq. by apply list_elem_of_In, in_map, list_elem_of_In.
  - destruct (Segment.same a s) eqn:Hsame; [|by apply IH].
    exfalso. apply Nat.eqb_eq in Hsame. apply Ha. rewrite Hsame.
    by apply list_elem_of_In, in_map, list_elem_of_In.
Qed.

(** X9. In every state that public calls can reach from a new repository the
    segments of [ordered] are different objects, so [remove(segment)] with a
    segment of [ordered] removes that one object and nothing else: it returns
    the one-element array, [ordered] is shorter by one, and every other
    segment is still there, in order. *)
Theorem remove_reachable (peaks : PeaksOptions) (calls : list call) (segment : Segment.t) :
  let w := run_calls calls (constructor peaks) in
  segment ∈ ordered w →
  ∃ w', remove segment w = (w', Return [segment])
        ∧ (segment ∉ ordered w')
        ∧ length (ordered w') + 1 = length (ordered w)
        ∧ sublist (ordered w') (ordered w)
        ∧ ∀ s, s ∈ ordered w → s ≠ segment → s ∈ ordered w'.
Proof.
  intros w Hin.
  destruct (run_calls_well_formed peaks calls) as (_ & _ & Hnd & _). fold w in Hnd.
  destruct (_removeSegments_run (λ s, Segment.same s segment) w)
    as (w' & Hrun & Hord & _).
  rewrite (filter_same_unique _ _ Hnd Hin) in Hrun.
  exists w'. split; [done|]. rewrite Hord. split.
  { intros [_ Hself%negb_true_iff]%elem_of_filter_bool.
    unfold Segment.same in Hself. by rewrite Nat.eqb_refl in Hself. }
  split.
  { pose proof (filter_length (λ s, Segment.same s segment) (ordered w)) as Hlen.
    rewrite (filter_same_unique _ _ Hnd Hin) in Hlen. simpl in Hlen. lia. }
  split; [apply sublist_filter|].
  intros s Hs Hne. apply elem_of_filter_bool. split; [done|].
  apply negb_true_iff, Nat.eqb_neq. intros Href. apply Hne.
  by apply (NoDup_map_inj_on Segment.ref (ordered w)).
Qed.

Lemma remove_reachable_witness :
  ∃ w', remove segment_0_10 holds_two = (w', Return [segment_0_10])
        ∧ (segment_0_10 ∉ ordered w')
        ∧ length (ordered w') + 1 = length (ordered holds_two)
        ∧ sublist (ordered w') (ordered holds_two)
        ∧ ∀ s, s ∈ ordered holds_two → s ≠ segment_0_10 → s ∈ ordered w'.
Proof.
  apply (remove_reachable plain_peaks
           [CallAdd [VArray [VObject (descriptor None 0 10);
                             VObject (descriptor None 10 20)]]] segment_0_10).
  apply (list_elem_of_lookup_2 _ 0). reflexivity.
Defined.

(** ** [removeAll] and the array that [getSegments] returned *)

(** X10. [removeAll] returns with both indexes empty and the index object a
    new [{}], so that [getSegment] is [null] for every id that is no member
    of [Object.prototype], and emits the one notification without payload.
    It resets neither the id counter nor the color cursor.  [this._segments]
    is a new array: the reference that [getSegments] returned before still
    leads to the old array with the old segments. *)
Theorem removeAll_resets (w : World) :
  ∃ w', removeAll w = (w', Return tt)
        ∧ ordered w' = []
        ∧ byId w' = ∅
        ∧ _segmentsById_prototype (this w') = None
        ∧ (∀ id, getSegment id w' = (w', Return (inherited None id)))
        ∧ (∀ id, (id ∉ "__proto__"%string :: Object_prototype_members) →
                 getSegment id w' = (w', Return Null))
        ∧ emitted w' = emitted w ++ [SegmentsRemoveAll]
        ∧ _segmentIdCounter (this w') = _segmentIdCounter (this w)
        ∧ _colorIndex (this w') = _colorIndex (this w)
        ∧ (store_ok w →
           _segments (this w') ≠ _segments (this w)
           ∧ array_get w' (_segments (this w)) = ordered w).
Proof.
  eexists. split; [reflexivity|].
  split. { unfold ordered, array_get. simpl. by rewrite lookup_insert_eq. }
  do 2 (split; [done|]).
  split. { intros id. unfold getSegment. simpl. by rewrite lookup_empty. }
  split.
  { intros id [Hproto Hmember]%not_elem_of_cons.
    unfold getSegment, inherited. simpl.
    by rewrite lookup_empty, !bool_decide_eq_false_2. }
  do 3 (split; [done|]).
  unfold store_ok, aref. intros Hstore. simpl.
  assert (Hne : next_array w ≠ _segments (this w)).
  { intros Heq. rewrite Heq in Hstore. by apply Nat.lt_irrefl in Hstore. }
  split; [done|].
  unfold ordered, array_get. simpl. by rewrite lookup_insert_ne.
Qed.

Lemma removeAll_resets_witness :
  ∃ w', removeAll holds_two = (w', Return tt)
        ∧ ordered w' = []
        ∧ _segmentIdCounter (this w') = 2%N
        ∧ getSegment "peaks.segment.0" w' = (w', Return Null)
        ∧ _segments (this w') ≠ _segments (this holds_two)
        ∧ array_get w' (_segments (this holds_two)) = [segment_0_10; segment_10_20].
Proof.
  destruct (removeAll_resets holds_two)
    as (w' & Hrun & Hord & _ & _ & _ & Hnull & _ & Hcnt & _ & Hstale).
  exists w'. split; [exact Hrun|]. split; [exact Hord|]. split; [exact Hcnt|].
  split.
  - apply Hnull. apply (bool_decide_unpack _). vm_compute. exact I.
  - apply Hstale. unfold store_ok. vm_compute. constructor.
Defined.

(** X11. The array that [getSegments] returns is a live view until the next
    [removeAll]: after any other public call [getSegments] returns the same
    reference, and the array behind it is the repository's ordered sequence
    as that call left it. *)
Theorem getSegments_live_view (c : call) (w : World) (a : aref) :
  snd (getSegments w) = Return a →
  c ≠ CallRemoveAll →
  snd (getSegments (run_call c w)) = Return a
  ∧ array_get (run_call c w) a = ordered (run_call c w).
Proof.
  intros [= <-] Hc.
  assert (Hseg : _segments (this (run_call c w)) = _segments (this w)).
  { destruct c; simpl; try done.
    - by destruct (add_frame arguments w) as (_ & ? & _).
    - by destruct (_removeSegments_frame (λ s, Segment.same s segment) w) as (_ & ? & _).
    - by destruct (_removeSegments_frame
                     (λ s, bool_decide (Segment.id s = segmentId)) w) as (_ & ? & _).
    - unfold removeByTime.
      match goal with |- context [_removeSegments ?p w] =>
        by destruct (_removeSegments_frame p w) as (_ & ? & _) end. }
  unfold getSegments, ordered. simpl. by rewrite Hseg.
Qed.

Lemma getSegments_live_view_witness :
  snd (getSegments (run_call (CallRemoveById "peaks.segment.0") holds_two)) = Return 0
  ∧ array_get (run_call (CallRemoveById "peaks.segment.0") holds_two) 0
    = ordered (run_call (CallRemoveById "peaks.segment.0") holds_two).
Proof.
  apply (getSegments_live_view (CallRemoveById "peaks.segment.0") holds_two 0).
  - reflexivity.
  - discriminate.
Defined.

(** ** The color cursor *)

Lemma run_calls_options (peaks : PeaksOptions) (calls : list call) :
  options (run_calls calls (constructor peaks)) = peaks.
Proof.
  assert (H : options (constructor peaks) = peaks) by done.
  revert H. generalize (constructor peaks).
  induction calls as [|c calls IH]; intros w Hw; [done|].
  simpl. apply IH. rewrite <- Hw. destruct c; simpl; try done.
  - by destruct (add_frame arguments w) as (_ & _ & ? & _).
  - by destruct (_removeSegments_frame (λ s, Segment.same s segment) w) as (_ & _ & ? & _).
  - by destruct (_removeSegments_frame
                   (λ s, bool_decide (Segment.id s = segmentId)) w) as (_ & _ & ? & _).
  - unfold removeByTime.
    match goal with |- context [_removeSegments ?p w] =>
      by destruct (_removeSegments_frame p w) as (_ & _ & ? & _) end.
Qed.

Lemma _getSegmentColor_in_range (w : World) :
  randomizeSegmentColor (options w) = true →
  cursor_in_range w →
  ∃ c, _getSegmentColor w
       = (with_this (set_colorIndex ((_colorIndex (this w) + 1) `mod` length colors)) w,
          Return (Some c))
       ∧ colors !! ((_colorIndex (this w) + 1) `mod` length colors) = Some c.
Proof.
  unfold cursor_in_range, _getSegmentColor. intros -> Hlt.
  assert (Hnext : (if S (_colorIndex (this w)) =? length colors
                   then 0 else S (_colorIndex (this w)))
                  = (_colorIndex (this w) + 1) `mod` length colors).
  { destruct (Nat.eqb_spec (S (_colorIndex (this w))) (length colors)) as [Heq|Hne].
    - rewrite Nat.add_1_r, Heq. by rewrite Nat.Div0.mod_same.
    - rewrite Nat.mod_small; lia. }
  rewrite Hnext.
  destruct (lookup_lt_is_Some_2 colors ((_colorIndex (this w) + 1) `mod` length colors))
    as [c Hc].
  { apply Nat.mod_upper_bound. simpl. lia. }
  exists c. by rewrite Hc.
Qed.

(** X12. The color cursor stays inside the palette in every state that
    public calls can reach from a new repository.  With a cursor inside the
    palette a host that asks for randomized colors gets a palette color, the
    entry after the cursor, wrapping from the last entry to the first, and the
    cursor moves there; a host that does not gets its fixed color and the
    cursor stays.  So a segment made in a reachable state for a descriptor
    without a color, under such a host, always has a color of the palette. *)
Theorem _getSegmentColor_palette :
  (∀ peaks calls, cursor_in_range (run_calls calls (constructor peaks)))
  ∧ (∀ w, randomizeSegmentColor (options w) = true → cursor_in_range w →
          ∃ c, _getSegmentColor w
               = (with_this
                    (set_colorIndex ((_colorIndex (this w) + 1) `mod` length colors)) w,
                  Return (Some c))
               ∧ colors !! ((_colorIndex (this w) + 1) `mod` length colors) = Some c
               ∧ c ∈ colors
               ∧ cursor_in_range (fst (_getSegmentColor w)))
  ∧ (∀ w, randomizeSegmentColor (options w) = false →
          _getSegmentColor w = (w, Return (segmentColor (options w))))
  ∧ (∀ peaks calls o,
        randomizeSegmentColor peaks = true → Options.color o = None →
        ∃ w' s c, _createSegment (VObject o) (run_calls calls (constructor peaks))
                  = (w', Return s)
                  ∧ Segment.color s = Some c ∧ c ∈ colors).
Proof.
  split; [intros peaks calls; by destruct (run_calls_well_formed peaks calls) as (_ & ? & _)|].
  split.
  { intros w Hr Hin. destruct (_getSegmentColor_in_range w Hr Hin) as (c & Hrun & Hc).
    exists c. do 2 (split; [done|]). split; [by eapply list_elem_of_lookup_2|].
    rewrite Hrun. unfold cursor_in_range. simpl.
    apply (Nat.mod_upper_bound _ 10). lia. }
  split.
  { intros w Hr. unfold _getSegmentColor. by rewrite Hr. }
  intros peaks calls o Hr Ho.
  destruct (run_calls_well_formed peaks calls) as (_ & Hin & _).
  pose proof (run_calls_options peaks calls) as Hopt.
  set (w := run_calls calls (constructor peaks)) in *.
  rewrite <- Hopt in Hr.
  unfold _createSegment. simpl. rewrite Ho.
  destruct (Options.id o) as [i|].
  - unfold bind at 1, ret at 1. unfold bind at 1.
    destruct (_getSegmentColor_in_range w Hr Hin) as (c & -> & Hc).
    eexists _, _, c. split; [reflexivity|]. split; [done|].
    by eapply list_elem_of_lookup_2.
  - unfold bind at 1, _getNextSegmentId at 1. unfold bind at 1.
    destruct (_getSegmentColor_in_range
                (with_this (set_segmentIdCounter (increment (_segmentIdCounter (this w)))) w)
                Hr Hin) as (c & -> & Hc).
    eexists _, _, c. split; [reflexivity|]. split; [done|].
    by eapply list_elem_of_lookup_2.
Qed.

(** A host with randomized colors whose cursor stands on the last palette
    entry: the next color is the first entry. *)
Lemma _getSegmentColor_palette_witness :
  (∃ c, _getSegmentColor (with_this (set_colorIndex 9) (constructor random_peaks))
        = (with_this (set_colorIndex 0) (constructor random_peaks), Return (Some c))
        ∧ colors !! 0 = Some c)
  ∧ _getSegmentColor (constructor plain_peaks)
    = (constructor plain_peaks, Return (Some "#ff0000"%string))
  ∧ (∃ w' s c, _createSegment (VObject (descriptor None 0 10))
                 (run_calls [CallAdd [VObject (descriptor None 5 6)]]
                    (constructor random_peaks))
               = (w', Return s)
               ∧ Segment.color s = Some c ∧ c ∈ colors).
Proof.
  destruct _getSegmentColor_palette as (_ & Hrandom & Hplain & Hcreate).
  split; [|split].
  - destruct (Hrandom (with_this (set_colorIndex 9) (constructor random_peaks)))
      as (c & Hrun & Hc & _).
    + reflexivity.
    + unfold cursor_in_range. vm_compute. constructor.
    + exists c. split; [exact Hrun | exact Hc].
  - apply Hplain. reflexivity.
  - apply Hcreate; reflexivity.
Defined.

(** ** The segments that [add] inserts *)

(** X13. [add] of a batch of descriptors whose normalized ids are all free
    appends one segment per descriptor to [ordered], in batch order and after
    the segments that were there, and announces exactly that batch.  Each
    segment has the times of its descriptor, its id and color when given,
    the empty label and [editable = false] when those are missing, and the
    host's fixed color when the color is missing and the host does not ask
    for randomized colors. *)
Theorem add_inserts_normalized (arguments : list value) (batch : list Options.t)
    (w : World) :
  add_batch arguments = map VObject batch →
  (∀ k, k ∈ normalized_ids (_segmentIdCounter (this w)) batch → byId w !! k = None) →
  ∃ w' segments,
    add arguments w = (w', Return tt)
    ∧ ordered w' = ordered w ++ segments
    ∧ length segments = length batch
    ∧ Forall2 (fills_in (options w)) batch segments
    ∧ emitted w' = emitted w ++ [SegmentsAdd segments].
Proof.
  intros Hbatch Hfree.
  destruct (normalization_passes batch w Hfree) as (w1 & segments & Hm & _).
  pose proof (normalization_fills_in _ _ _ _ Hm) as Hfill.
  rewrite <- Hbatch in Hm.
  destruct (add_returns _ _ _ _ Hm) as (w' & Hadd & Hord & _ & Hem & _).
  exists w', segments. do 2 (split; [done|]).
  split; [symmetry; by eapply Forall2_length|]. done.
Qed.

(** A descriptor with a label and a color and one with neither, for a new
    repository whose host has a fixed color. *)
Lemma add_inserts_normalized_witness :
  ∃ w' segments,
    add [VObject (Options.Build (Some "a"%string) (JsNumber.of_Z 0) (JsNumber.of_Z 10)
                    (Some "#123456"%string) (Some "intro"%string) (Some true));
         VObject (descriptor None 10 20)]
      (constructor plain_peaks) = (w', Return tt)
    ∧ ordered w' = ordered (constructor plain_peaks) ++ segments
    ∧ length segments = 2
    ∧ Forall2 (fills_in plain_peaks)
        [Options.Build (Some "a"%string) (JsNumber.of_Z 0) (JsNumber.of_Z 10)
           (Some "#123456"%string) (Some "intro"%string) (Some true);
         descriptor None 10 20] segments
    ∧ emitted w' = emitted (constructor plain_peaks) ++ [SegmentsAdd segments].
Proof.
  apply (add_inserts_normalized _
           [Options.Build (Some "a"%string) (JsNumber.of_Z 0) (JsNumber.of_Z 10)
              (Some "#123456"%string) (Some "intro"%string) (Some true);
            descriptor None 10 20] (constructor plain_peaks)).
  - reflexivity.
  - intros k _. reflexivity.
Defined.

(** ** An automatic id that is already taken *)

(** X14. When the id that the counter would give next is already a key of
    [byId] (a caller gave it explicitly), [add] of a descriptor without an id
    throws the duplicate-id error and inserts nothing, but the counter has
    moved on, so that the same call made again does not meet that id.  Only
    a counter that stands at its limit 2^53 does not move any more. *)
Theorem add_automatic_id_taken (o : Options.t) (w : World) :
  Options.id o = None →
  is_Some (byId w !! ("peaks.segment." +:+ pretty (_segmentIdCounter (this w)))) →
  ∃ w', add [VObject o] w = (w', Throw (Error "peaks.segments.add(): duplicate id"))
        ∧ ((_segmentIdCounter (this w) < counter_limit)%N →
           _segmentIdCounter (this w') = (_segmentIdCounter (this w) + 1)%N)
        ∧ ((counter_limit ≤ _segmentIdCounter (this w))%N →
           _segmentIdCounter (this w') = _segmentIdCounter (this w))
        ∧ ordered w' = ordered w
        ∧ byId w' = byId w
        ∧ emitted w' = emitted w.
Proof.
  intros Ho Htaken.
  destruct (_createSegment_object o w)
    as (w1 & s & Hc & Hid & _ & _ & _ & Hcnt & _ & _ & Hun).
  unfold normalized_id in Hid. unfold counter_after in Hcnt. rewrite Ho in Hid, Hcnt.
  pose proof (indexes_untouched_byId _ _ Hun) as Hby. unfold byId in Hby, Htaken.
  assert (Hm : array_map add_check (add_batch [VObject o]) w = (w1, Throw duplicate_id)).
  { simpl. unfold bind at 1. rewrite (add_check_object _ _ _ _ Hc), Hby, Hid.
    by rewrite (objectHasProperty_true _ _ Htaken). }
  destruct (add_throws _ _ _ _ Hm) as (Hadd & Hrest).
  exists w1. rewrite Hadd, Hcnt. split; [done|].
  split; [apply increment_below|]. split; [apply increment_at_limit | done].
Qed.

(** The caller has used the id ["peaks.segment.0"] in a new repository. *)
Lemma add_automatic_id_taken_witness :
  let w := run_calls [CallAdd [VObject (descriptor (Some "peaks.segment.0"%string) 0 10)]]
             (constructor plain_peaks) in
  ∃ w', add [VObject (descriptor None 10 20)] w
        = (w', Throw (Error "peaks.segments.add(): duplicate id"))
        ∧ _segmentIdCounter (this w') = (_segmentIdCounter (this w) + 1)%N
        ∧ ordered w' = ordered w
        ∧ byId w' = byId w
        ∧ emitted w' = emitted w.
Proof.
  intros w.
  destruct (add_automatic_id_taken (descriptor None 10 20) w)
    as (w' & Hrun & Hbelow & _ & Hrest).
  - reflexivity.
  - eexists. reflexivity.
  - exists w'. split; [exact Hrun|]. split; [|exact Hrest].
    apply Hbelow. reflexivity.
Defined.

(** ** Notifications *)

(** X15. One notification for one change: [add] that returns has emitted
    exactly one "segments.add" whose payload is the batch it appended, [add]
    that throws has emitted nothing; a removal by predicate has emitted
    exactly one "segments.remove" whose payload is the array it returns, also
    when that is empty; [removeAll] has emitted exactly one
    "segments.remove_all".  Earlier notifications are never touched. *)
Theorem notification_contract (w : World) :
  (∀ arguments w' r,
      add arguments w = (w', r) →
      match r with
      | Return _ => ∃ segments, emitted w' = emitted w ++ [SegmentsAdd segments]
                                ∧ ordered w' = ordered w ++ segments
      | Throw _ => emitted w' = emitted w
      end)
  ∧ (∀ predicate,
        ∃ w' removed, _removeSegments predicate w = (w', Return removed)
                      ∧ emitted w' = emitted w ++ [SegmentsRemove removed])
  ∧ emitted (fst (removeAll w)) = emitted w ++ [SegmentsRemoveAll].
Proof.
  split; [|split; [|done]].
  - intros arguments w' r Hadd.
    destruct (array_map add_check (add_batch arguments) w) as [w1 [segments|e]] eqn:Hm.
    + destruct (add_returns _ _ _ _ Hm) as (w2 & Hret & Hord & _ & Hem & _).
      rewrite Hret in Hadd. injection Hadd as <- <-. by exists segments.
    + destruct (add_throws _ _ _ _ Hm) as (Hthrow & _ & _ & Hem).
      rewrite Hthrow in Hadd. by injection Hadd as <- <-.
  - intros predicate.
    destruct (_removeSegments_run predicate w) as (w' & Hrun & _ & _ & Hem & _).
    by exists w', (List.filter predicate (ordered w)).
Qed.

Lemma notification_contract_witness :
  ∃ segments,
    emitted (fst (add [VObject (descriptor None 20 30)] holds_two))
    = emitted holds_two ++ [SegmentsAdd segments]
    ∧ ordered (fst (add [VObject (descriptor None 20 30)] holds_two))
      = ordered holds_two ++ segments.
Proof.
  destruct (notification_contract holds_two) as (Hadd & _).
  apply (Hadd [VObject (descriptor None 20 30)] _ (Return tt)).
  reflexivity.
Defined.

(** ** Lookup by id and the ordered sequence *)

(** X16. After any sequence of public calls on a new repository in which no
    [add] batch gives the same id to two of its descriptors, or the id
    [__proto__] to one, [getSegment(id)] answers what a search of the ordered
    sequence for the first segment with that id answers when there is such a
    segment; when there is none it answers what [Object.prototype] holds
    under that name, which is [null] unless the id names one of its
    members. *)
Theorem getSegment_linear_search (peaks : PeaksOptions) (calls : list call)
    (id : string) :
  batches_ids_proper calls (constructor peaks) →
  let w := run_calls calls (constructor peaks) in
  getSegment id w
  = (w, Return match List.find (λ s, bool_decide (Segment.id s = id)) (ordered w) with
               | Some s => Found s
               | None => inherited None id
               end)
  ∧ ((id ∉ "__proto__"%string :: Object_prototype_members) →
     List.find (λ s, bool_decide (Segment.id s = id)) (ordered w) = None →
     getSegment id w = (w, Return Null)).
Proof.
  intros Hcalls w.
  destruct (run_calls_proper calls (constructor peaks)) as [[_ Hlink] [Hprototype _]];
    [apply constructor_linked | apply constructor_plain | done |].
  fold w in Hlink, Hprototype.
  assert (Hget : getSegment id w
                 = (w, Return match List.find (λ s, bool_decide (Segment.id s = id))
                                      (ordered w) with
                              | Some s => Found s
                              | None => inherited None id
                              end)).
  { unfold getSegment. do 2 f_equal. fold (byId w). rewrite Hprototype.
    destruct (List.find _ (ordered w)) as [v|] eqn:Hfind.
    - apply find_some in Hfind as [Hv Hid%bool_decide_eq_true].
      assert (Hfound : byId w !! id = Some v)
        by (apply Hlink; split; [by apply list_elem_of_In | done]).
      by rewrite Hfound.
    - destruct (byId w !! id) as [v|] eqn:Hv; [|done].
      apply Hlink in Hv as [Hv Hid].
      apply list_elem_of_In in Hv.
      pose proof (find_none _ _ Hfind v Hv) as Hno. simpl in Hno.
      by apply bool_decide_eq_false in Hno. }
  split; [done|].
  intros [Hproto Hmember]%not_elem_of_cons Hnone.
  rewrite Hget, Hnone. unfold inherited. by rewrite !bool_decide_eq_false_2.
Qed.

Lemma getSegment_linear_search_witness :
  getSegment "peaks.segment.1" holds_two = (holds_two, Return (Found segment_10_20))
  ∧ getSegment "peaks.segment.2" holds_two = (holds_two, Return Null)
  ∧ getSegment "toString" holds_two
    = (holds_two, Return (FoundObjectPrototypeMember "toString")).
Proof.
  assert (Hcalls : batches_ids_proper
                     [CallAdd [VArray [VObject (descriptor None 0 10);
                                       VObject (descriptor None 10 20)]]]
                     (constructor plain_peaks)).
  { split; [|exact I].
    intros batch Hbatch.
    apply (map_VObject_inj [descriptor None 0 10; descriptor None 10 20]) in Hbatch.
    subst batch. split; apply (bool_decide_unpack _); vm_compute; exact I. }
  split; [|split].
  - exact (proj1 (getSegment_linear_search plain_peaks _ "peaks.segment.1" Hcalls)).
  - apply (proj2 (getSegment_linear_search plain_peaks _ "peaks.segment.2" Hcalls)).
    + apply (bool_decide_unpack _). vm_compute. exact I.
    + reflexivity.
  - exact (proj1 (getSegment_linear_search plain_peaks _ "toString" Hcalls)).
Defined.

(** ** Edges of the queries and of the removals by time and by id *)

Lemma le_lt_trans (a t b : JsNumber.t) :
  JsNumber.le a t = true → JsNumber.lt t b = true → JsNumber.lt a b = true.
Proof.
  unfold JsNumber.le.
  destruct a as [| |x|], t as [| |y|], b as [| |z|]; simpl; try done.
  rewrite orb_true_iff, !negb_true_iff.
  intros Hxy Hyz. apply not_true_is_false. intros Hzx%Qle_bool_iff.
  apply not_true_iff_false in Hyz. apply Hyz, Qle_bool_iff.
  destruct Hxy as [Hxy|Hxy%Qeq_bool_iff].
  - apply not_true_iff_false in Hxy. exfalso. apply Hxy, Qle_bool_iff.
    destruct (Qlt_le_dec x y) as [Hlt|Hle]; [|done].
    exfalso. apply Hyz, Qle_bool_iff.
    apply Qle_trans with x; [done | by apply Qlt_le_weak].
  - by rewrite <- Hxy.
Qed.

(** X17. [getSegmentsAtTime] never returns a segment that is empty or
    inverted: every segment it returns has [startTime < endTime].  Asked
    about [NaN] it returns the empty array. *)
Theorem getSegmentsAtTime_edges (w : World) :
  (∀ time s,
      JsNumber.lt (Segment.startTime s) (Segment.endTime s) = false →
      ∃ result, getSegmentsAtTime time w = (w, Return result) ∧ s ∉ result)
  ∧ getSegmentsAtTime JsNumber.NaN w = (w, Return []).
Proof.
  split.
  - intros time s Hempty. eexists. split; [reflexivity|].
    intros [_ [Hge Hlt]%andb_true_iff]%elem_of_filter_bool.
    rewrite ge_le in Hge.
    by rewrite (le_lt_trans _ _ _ Hge Hlt) in Hempty.
  - unfold getSegmentsAtTime. do 2 f_equal. apply filter_none.
    intros s _. unfold JsNumber.ge. by destruct (Segment.startTime s).
Qed.

(** A segment that starts and ends at 3, asked about at time 3. *)
Lemma getSegmentsAtTime_edges_witness :
  let w := run_calls [CallAdd [VObject (descriptor (Some "point"%string) 3 3)]]
             (constructor plain_peaks) in
  let s := Segment.Build 0 "point" (JsNumber.of_Z 3) (JsNumber.of_Z 3)
             (Some "#ff0000"%string) "" false in
  ∃ result, getSegmentsAtTime (JsNumber.of_Z 3) w = (w, Return result) ∧ s ∉ result.
Proof.
  intros w s. destruct (getSegmentsAtTime_edges w) as [Hempty _].
  apply Hempty. reflexivity.
Defined.

Lemma sublist_filter_and {A} (p q : A → bool) (l : list A) :
  sublist (List.filter (λ x, p x && q x) l) (List.filter p l).
Proof.
  induction l as [|a l IH]; simpl; [constructor|].
  destruct (p a); simpl; [|done].
  destruct (q a); by constructor.
Qed.

(** X18. An [endTime] argument of [removeByTime] that is not a number, or is
    a number that is not greater than zero (zero, a negative number, [NaN]),
    is ignored: the call is the call without [endTime].  Whatever [endTime]
    is, every removed segment has the given [startTime], and what is removed
    is part of what the call without [endTime] removes. *)
Theorem removeByTime_endTime (startTime : JsNumber.t) (endTime : value) (w : World) :
  ((∀ n, endTime = VNumber n → JsNumber.gt n JsNumber.zero = false) →
   removeByTime startTime endTime w = removeByTime startTime VUndefined w)
  ∧ ∃ w' w'' removed removed',
      removeByTime startTime endTime w = (w', Return removed)
      ∧ removeByTime startTime VUndefined w = (w'', Return removed')
      ∧ sublist removed removed'
      ∧ ∀ s, s ∈ removed →
             JsNumber.strict_eq (Segment.startTime s) startTime = true.
Proof.
  split.
  - intros Hend. unfold removeByTime.
    destruct endTime as [| | |n| | |]; try done. by rewrite (Hend n eq_refl).
  - set (by_start := λ s, JsNumber.strict_eq (Segment.startTime s) startTime).
    destruct (_removeSegments_run by_start w) as (w'' & Hrun' & _).
    assert (Hundef : removeByTime startTime VUndefined w
                     = (w'', Return (List.filter by_start (ordered w)))) by done.
    unfold removeByTime at 1.
    destruct (JsNumber.gt _ JsNumber.zero).
    + match goal with |- context [_removeSegments ?p w] =>
        destruct (_removeSegments_run p w) as (w' & Hrun & _) end.
      eexists w', w'', _, _. do 2 (split; [done|]). split.
      * apply sublist_filter_and.
      * by intros s [_ [? _]%andb_true_iff]%elem_of_filter_bool.
    + eexists w'', w'', _, _. do 2 (split; [done|]). split; [done|].
      by intros s [_ ?]%elem_of_filter_bool.
Qed.

(** [removeByTime(0, -1)] on the repository that holds [0, 10) and [10, 20). *)
Lemma removeByTime_endTime_witness :
  removeByTime (JsNumber.of_Z 0) (VNumber (JsNumber.of_Z (-1))) holds_two
  = removeByTime (JsNumber.of_Z 0) VUndefined holds_two.
Proof.
  destruct (removeByTime_endTime (JsNumber.of_Z 0) (VNumber (JsNumber.of_Z (-1)))
              holds_two) as [Hignored _].
  apply Hignored. intros n [= <-]. reflexivity.
Defined.

(** X19. [removeById] removes every segment with the given id, however many
    there are and whether or not the two indexes agree: none is left in
    [ordered], each removed segment had the id, and when at least one was
    removed the id is no key of [byId] afterwards, so that [getSegment] of
    the id answers what the prototype chain of the index object holds under
    that name: [null] when the index object has the prototype that [{}] gave
    it and the id is no member of [Object.prototype]. *)
Theorem removeById_all (segmentId : string) (w : World) :
  ∃ w' removed,
    removeById segmentId w = (w', Return removed)
    ∧ (∀ s, s ∈ removed ↔ s ∈ ordered w ∧ Segment.id s = segmentId)
    ∧ (∀ s, s ∈ ordered w' ↔ s ∈ ordered w ∧ Segment.id s ≠ segmentId)
    ∧ (removed ≠ [] →
       byId w' !! segmentId = None
       ∧ getSegment segmentId w'
         = (w', Return (inherited (_segmentsById_prototype (this w)) segmentId))
       ∧ (_segmentsById_prototype (this w) = None →
          (segmentId ∉ "__proto__"%string :: Object_prototype_members) →
          getSegment segmentId w' = (w', Return Null))).
Proof.
  pose proof (_removeSegments_keeps_prototype
                (λ s, bool_decide (Segment.id s = segmentId)) w) as Hprototype.
  destruct (removal_by_predicate_frame
              (λ s, bool_decide (Segment.id s = segmentId)) w)
    as (w' & Hrun & Hord & Hby).
  rewrite Hrun in Hprototype. unfold prototype_kept in Hprototype. simpl in Hprototype.
  exists w', (List.filter (λ s, bool_decide (Segment.id s = segmentId)) (ordered w)).
  split; [done|].
  split. { intros s. by rewrite elem_of_filter_bool, bool_decide_eq_true. }
  split. { intros s. by rewrite Hord, elem_of_filter_bool, negb_true_iff,
                        bool_decide_eq_false. }
  intros Hsome.
  assert (Hgone : byId w' !! segmentId = None).
  { rewrite Hby. rewrite decide_True; [done|].
    destruct (List.filter _ (ordered w)) as [|s l] eqn:Hf; [done|].
    assert (Hs : s ∈ List.filter (λ s, bool_decide (Segment.id s = segmentId)) (ordered w))
      by (rewrite Hf; apply list_elem_of_here).
    apply elem_of_filter_bool in Hs as [_ Hid%bool_decide_eq_true].
    simpl. rewrite Hid. apply list_elem_of_here. }
  assert (Hget : getSegment segmentId w'
                 = (w', Return (inherited (_segmentsById_prototype (this w)) segmentId))).
  { unfold getSegment. fold (byId w'). by rewrite Hgone, Hprototype. }
  do 2 (split; [done|]).
  intros Hplain [Hproto Hmember]%not_elem_of_cons.
  rewrite Hget, Hplain. unfold inherited. by rewrite !bool_decide_eq_false_2.
Qed.

(** The repository after [add] of two descriptors with the id ["a"]. *)
Lemma removeById_all_witness :
  let w := run_calls [CallAdd [VArray [VObject (descriptor (Some "a"%string) 0 10);
                                      VObject (descriptor (Some "a"%string) 20 30)]]]
             (constructor plain_peaks) in
  ∃ w', fst (removeById "a" w) = w' ∧ ordered w' = []
        ∧ byId w' !! "a"%string = None
        ∧ getSegment "a" w' = (w', Return Null).
Proof.
  intros w. destruct (removeById_all "a" w) as (w' & removed & Hrun & _ & _ & Hnull).
  exists w'. split; [by rewrite Hrun|].
  split.
  - assert (Hw : w' = fst (removeById "a" w)) by (by rewrite Hrun).
    rewrite Hw. reflexivity.
  - destruct Hnull as (Hgone & _ & Hget).
    + assert (Hr : Return removed = snd (removeById "a" w)) by (by rewrite Hrun).
      intros ->. discriminate Hr.
    + split; [exact Hgone|]. apply Hget; [reflexivity|].
      apply (bool_decide_unpack _). vm_compute. exact I.
Defined.

(** ** Empty batches and surplus arguments *)

(** X20. [add()] and [add([])] insert nothing and change neither index nor
    counter, yet return and emit one "segments.add" with an empty payload.
    When the first argument is an array the arguments after it are ignored. *)
Theorem add_empty_batch (w : World) :
  (∀ arguments,
      add_batch arguments = [] →
      ∃ w', add arguments w = (w', Return tt)
            ∧ ordered w' = ordered w
            ∧ byId w' = byId w
            ∧ this w' = this w
            ∧ emitted w' = emitted w ++ [SegmentsAdd []])
  ∧ (∀ elements rest, add (VArray elements :: rest) w = add [VArray elements] w).
Proof.
  split; [|done].
  intros arguments Hempty. unfold add. rewrite Hempty. simpl.
  unfold bind, ret, emit. simpl. eexists. split; [reflexivity|]. done.
Qed.

Lemma add_empty_batch_witness :
  ∃ w', add [] holds_two = (w', Return tt)
        ∧ ordered w' = ordered holds_two
        ∧ byId w' = byId holds_two
        ∧ this w' = this holds_two
        ∧ emitted w' = emitted holds_two ++ [SegmentsAdd []].
Proof.
  destruct (add_empty_batch holds_two) as [Hempty _].
  apply Hempty. reflexivity.
Defined.

(** ** The id [__proto__] *)

(** X21. [add] of a descriptor with the id [__proto__] returns, although the
    index object gets no key for it: the segment is appended to [ordered],
    [byId] has the keys it had, and the segment has become the prototype of
    the index object, where [getSegment("__proto__")] finds it.  The two
    indexes are no longer consistent, and the duplicate check does not see
    the segment: the same [add] made again returns as well. *)
Theorem add_proto_id (o : Options.t) (w : World) :
  Options.id o = Some "__proto__"%string →
  byId w !! "__proto__"%string = None →
  ∃ w' s,
    add [VObject o] w = (w', Return tt)
    ∧ Segment.id s = "__proto__"%string
    ∧ ordered w' = ordered w ++ [s]
    ∧ byId w' = byId w
    ∧ _segmentsById_prototype (this w') = Some s
    ∧ getSegment "__proto__" w' = (w', Return (Found s))
    ∧ ¬ consistent w'
    ∧ ∃ w'', add [VObject o] w' = (w'', Return tt).
Proof.
  intros Ho Hfree.
  assert (Hids : ∀ c, normalized_ids c [o] = ["__proto__"%string]).
  { intros c. simpl. unfold normalized_id. by rewrite Ho. }
  destruct (normalization_passes [o] w) as (w1 & segments & Hm & Hsegs & _).
  { rewrite Hids. intros k ->%list_elem_of_singleton. done. }
  rewrite Hids in Hsegs.
  destruct segments as [|s [|s' segments]]; try discriminate Hsegs.
  injection Hsegs as Hs.
  pose proof (normalization_keeps_indexes (map VObject [o]) w) as Hun.
  rewrite Hm in Hun. apply indexes_untouched_byId in Hun. simpl in Hun.
  destruct (add_returns [VObject o] _ _ _ Hm) as (w' & Hadd & Hord & Hthis & _).
  assert (Hthis' : this w' = set_segmentsById_prototype (Some s) (this w1)).
  { rewrite Hthis. unfold assign_all. simpl. unfold index_assign.
    unfold byId in Hun, Hfree. rewrite Hs, Hun, Hfree.
    by rewrite bool_decide_eq_true_2. }
  assert (Hby : byId w' = byId w) by (unfold byId; by rewrite Hthis').
  assert (Hprototype : _segmentsById_prototype (this w') = Some s)
    by (by rewrite Hthis').
  exists w', s. do 5 (split; [done|]). split.
  { unfold getSegment. fold (byId w'). rewrite Hby, Hfree, Hprototype. done. }
  split.
  { intros [Hmap _]. specialize (Hmap s). rewrite Hord, Hs, Hby, Hfree in Hmap.
    discriminate Hmap. apply elem_of_app. right. apply list_elem_of_here. }
  destruct (normalization_passes [o] w') as (w2 & segments & Hm' & _).
  { rewrite Hids. intros k ->%list_elem_of_singleton. by rewrite Hby. }
  destruct (add_returns [VObject o] _ _ _ Hm') as (w'' & Hadd' & _).
  by exists w''.
Qed.

Lemma add_proto_id_witness :
  ∃ w' s,
    add [VObject (descriptor (Some "__proto__"%string) 0 10)] (constructor plain_peaks)
    = (w', Return tt)
    ∧ Segment.id s = "__proto__"%string
    ∧ ordered w' = ordered (constructor plain_peaks) ++ [s]
    ∧ byId w' = byId (constructor plain_peaks)
    ∧ _segmentsById_prototype (this w') = Some s
    ∧ getSegment "__proto__" w' = (w', Return (Found s))
    ∧ ¬ consistent w'
    ∧ ∃ w'', add [VObject (descriptor (Some "__proto__"%string) 0 10)] w'
             = (w'', Return tt).
Proof.
  apply add_proto_id; reflexivity.
Defined.
